(** * Route planning of gatsby-theme-try-ghost (gatsby-node.js)

    A shallow embedding of [packages/gatsby-theme-try-ghost/gatsby-node.js].
    Post nodes are shared mutable objects: [getCollection] stamps
    [collectionPath] on them in place and every later reader sees the stamp.
    They therefore live in a heap (a list indexed by location) and the edge
    arrays handed around by the code are lists of locations.  Page creation,
    the stamping of nodes and JavaScript exceptions are effects of a small
    state-and-error monad.  The [reporter.info] lines, which only log, are
    left out.

    [src/utils/routing.js] ([resolveUrl]) and [src/utils/infinite-scroll.js]
    ([infiniteScroll]) are not part of the file: the planner is parametric in
    them.  [src/utils/pagination.js] ([paginate]) is modelled from the
    specification. *)

From Stdlib Require Import ZArith Lia.
From stdpp Require Import base option list gmap strings pretty.

Open Scope string_scope.
Open Scope list_scope.

(** ** Data model *)

(** A node of the content graph (page, post, tag or author).  A field that
    is [null] in the query result is [None]; [collectionPath] is not a field
    of the query and is [None] until it is assigned. *)
Record Node := mkNode {
  node_id : string;
  slug : string;
  url : option string;
  tags : list string;
  primary_tag : option string;        (* the slug of [node.primary_tag] *)
  postCount : option Z;
  collectionPath : option string;
}.

(** [node.collectionPath = p] *)
Definition set_collectionPath (p : option string) (n : Node) : Node :=
  {| node_id := node_id n; slug := slug n; url := url n; tags := tags n;
     primary_tag := primary_tag n; postCount := postCount n;
     collectionPath := p |}.

(** The literal [{ node: { slug: `` } }] of [createPostPages]. *)
Definition sentinelNode : Node :=
  {| node_id := ""; slug := ""; url := None; tags := [];
     primary_tag := None; postCount := None; collectionPath := None |}.

Record Collection := mkCollection {
  path : string;
  selector : option (Node → bool);    (* [None]: the option is not set *)
}.

(** Context of a post route. *)
Record PostContext := mkPostContext {
  pc_slug : string;
  prev : string;
  next : string;
  tag : string;
  limit : Z;
  skip : Z;
  primaryTagCount : Z;
  collectionPaths : gmap string (option string);
}.

(** Context handed to [paginate] by its two callers. *)
Inductive PassContext :=
| IndexContext (collectionPath : string) (iScrollEnabled : bool)
    (postIds : list string) (cursor : Z)
| TaxonomyContext (slug : string) (collectionPaths : gmap string (option string))
    (iScrollEnabled : bool) (postIds : option (list string)) (cursor : Z).

Record PaginationContext := mkPaginationContext {
  pageNumber : nat;
  totalItems : Z;
  itemsPerPage : Z;
  pg_cursor : Z;
  pg_path : string;
}.

Inductive Context :=
| PageCtx (slug : string)
| PostCtx (c : PostContext)
| PaginatedCtx (pg : PaginationContext) (pass : PassContext).

Record Route := mkRoute {
  route_path : string;
  component : string;
  route_context : Context;
}.

Record Templates := mkTemplates {
  t_page : string; t_post : string; t_index : string;
  t_tag : string; t_author : string;
}.

Record CreateOptions := mkCreateOptions {
  verbose : bool;
  basePath : string;
  iScrollEnabled : bool;
  postsPerPage : Z;
}.

(** ** Effects *)

Inductive Error :=
| FetchError (errors : list string)   (* [throw new Error(result.errors)] *)
| TypeError.                          (* property access on [undefined] *)

Inductive Result (A : Type) :=
| Ok (a : A)
| Throw (e : Error).
Arguments Ok {A} a.
Arguments Throw {A} e.

Abbreviation loc := nat (only parsing).

(** The heap of post nodes, the log of [collectionPath] assignments and the
    routes handed to [createPage] so far. *)
Record World := mkWorld {
  heap : list Node;
  writes : list (loc * string);
  created : list Route;
}.

Definition M (A : Type) : Type := World → Result A * World.

Definition ret {A} (a : A) : M A := λ w, (Ok a, w).

Definition bind {A B} (m : M A) (k : A → M B) : M B :=
  λ w, match m w with
       | (Ok a, w') => k a w'
       | (Throw e, w') => (Throw e, w')
       end.

Definition throw {A} (e : Error) : M A := λ w, (Throw e, w).

Declare Scope plan_scope.
Delimit Scope plan_scope with plan.
Notation "x ←' m ; k" := (bind m (λ x, k))
  (at level 20, m at level 100, k at level 200, only parsing) : plan_scope.
Notation "m ;;' k" := (bind m (λ _, k))
  (at level 100, k at level 200, right associativity, only parsing) : plan_scope.
Open Scope plan_scope.

(** [createPage(route)]: the sink of the plan. *)
Definition createPage (r : Route) : M unit :=
  λ w, (Ok tt, mkWorld (heap w) (writes w) (created w ++ [r])).

(** [node.collectionPath = p] on the node at location [l]. *)
Definition assign (l : loc) (p : string) : M unit :=
  λ w, (Ok tt, mkWorld (alter (set_collectionPath (Some p)) l (heap w))
                       (writes w ++ [(l, p)]) (created w)).

(** The nodes the edges [ls] hold at present. *)
Definition deref (h : list Node) (ls : list loc) : list Node :=
  omap (λ l, h !! l) ls.

Definition nodesOf (ls : list loc) : M (list Node) :=
  λ w, (Ok (deref (heap w) ls), w).

(** [xs.forEach((x, i) => f(x, i))], counting from [i]. *)
Fixpoint forEachFrom {A} (i : nat) (xs : list A) (f : nat → A → M unit) : M unit :=
  match xs with
  | [] => ret tt
  | x :: xs' => f i x ;;' forEachFrom (S i) xs' f
  end.

Definition forEach {A} (xs : list A) (f : A → M unit) : M unit :=
  forEachFrom 0 xs (λ _, f).

(** Does [f] accept the node of edge [l]? *)
Definition holds (f : Node → bool) (h : list Node) (l : loc) : bool :=
  match h !! l with
  | Some n => f n
  | None => false
  end.

(** [edges.filter(({ node }) => f(node))] *)
Definition filterEdges (f : Node → bool) (ls : list loc) : M (list loc) :=
  λ w, (Ok (filter (λ l, holds f (heap w) l) ls), w).

(** The post edges of a query result: its nodes are the heap from here on. *)
Definition materialize (nodes : list Node) : M (list loc) :=
  λ w, (Ok (seq 0 (length nodes)), mkWorld nodes (writes w) (created w)).

(** ** Collaborators that are not part of gatsby-node.js *)

(** The value of [infiniteScroll(enabled, posts)]. *)
Record IScroll := mkIScroll {
  indexIds : list string;
  tagIds : gmap string (list string);
  authorIds : gmap string (list string);
}.

(** Modelled from the spec: [src/utils/infinite-scroll.js] is missing.
    Section 4.5: with the feature disabled the indexer returns empty
    structures. *)
Definition disabledScroll : IScroll := mkIScroll [] ∅ ∅.

(** Modelled from the spec: the [ceil] of section 4.4, the ceiling of
    [a / b] for a positive [b]. *)
Definition ceilDiv (a b : Z) : Z := (- ((- a) / b))%Z.

(** Modelled from the spec: [src/utils/pagination.js] is missing.  Section 4.4:
    the number of pages is [ceil(totalItems / itemsPerPage)], at least 1. *)
Definition numberOfPages (total perPage : Z) : nat :=
  Z.to_nat (Z.max 1 (ceilDiv total perPage)).

(** Modelled from the spec: [src/utils/pagination.js] is missing.  Section 4.4:
    page 0 has the path of its prefix, a later page a path of the form
    prefix/n with n counted from 1. *)
Definition paginationPath (pathPrefix : nat → string) (pageNumber : nat) : string :=
  match pageNumber with
  | 0 => pathPrefix 0
  | _ => pathPrefix pageNumber +:+ "/" +:+ pretty (S pageNumber)
  end.

(** Modelled from the spec: [src/utils/pagination.js] is missing.  Sections 3
    and 4.4: the route of a page carries its [PaginationContext] (the cursor
    is the offset of the page's first item) and the context of the caller,
    passed through. *)
Definition pageRoute (total perPage : Z) (template : string)
    (pathPrefix : nat → string) (pass : PassContext) (n : nat) : Route :=
  mkRoute (paginationPath pathPrefix n) template
    (PaginatedCtx
       (mkPaginationContext n total perPage (Z.of_nat n * perPage)
          (paginationPath pathPrefix n))
       pass).

(** Modelled from the spec: [src/utils/pagination.js] is missing.  Section 4.4:
    one route per page, in order. *)
Definition paginate (total perPage : Z) (template : string)
    (pathPrefix : nat → string) (pass : PassContext) : M unit :=
  forEach (seq 0 (numberOfPages total perPage))
    (λ n, createPage (pageRoute total perPage template pathPrefix pass n)).

(** ** gatsby-node.js *)

Record ThemeRoutes := mkThemeRoutes {
  r_basePath : option string;
  r_collections : option (list Collection);
}.

Record ThemeOptions := mkThemeOptions {
  routes : option ThemeRoutes;
  sc_verbose : bool;
  sc_infiniteScroll : bool;
}.

(** What [await graphql(gatsbyNodeQuery)] resolves to. *)
Record QueryResult := mkQueryResult {
  errors : option (list string);
  sm_postsPerPage : Z;
  allGhostPage : list Node;
  allGhostPost : list Node;
  allGhostTag : list Node;
  allGhostAuthor : list Node;
}.

(** [posts.find(({ node }) => node.id === id)] *)
Definition findById (i : string) (posts : list Node) : option Node :=
  List.find (λ n, bool_decide (node_id n = i)) posts.

(** The body of [ids.forEach] in [getCollectionPaths], threading [paths].
    [paths] is a plain object used as a table from ids to paths.  A finite
    map is what such an object is on every key but [__proto__], the one key
    an assignment does not store under and which no fetched post has for
    id; the statements about the exact keys of the table exclude it. *)
Fixpoint collectPaths (ids : list string) (posts : list Node)
    (paths : gmap string (option string)) : Result (gmap string (option string)) :=
  match ids with
  | [] => Ok paths
  | i :: ids' =>
      match findById i posts with
      | Some n => collectPaths ids' posts (<[i := collectionPath n]> paths)
      | None => Throw TypeError
      end
  end.

(** [ids] is [None] when the caller passes [undefined]. *)
Definition getCollectionPaths (ids : option (list string)) (posts : list Node)
    : M (gmap string (option string)) :=
  match ids with
  | None => throw TypeError
  | Some ids =>
      match collectPaths ids posts ∅ with
      | Ok paths => ret paths
      | Throw e => throw e
      end
  end.

(** [_.find(tags, t => node.primary_tag && t.node.slug === node.primary_tag.slug)]
    followed by the guarded read of [postCount]. *)
Definition primaryTagCountOf (tags : list Node) (node : Node) : Z :=
  let found :=
    List.find (λ t, match primary_tag node with
                    | Some s => bool_decide (slug t = s)
                    | None => false
                    end) tags in
  match found with
  | Some t => match postCount t with
              | Some c => c
              | None => 0%Z
              end
  | None => 0%Z
  end.

Section Planner.

(** [src/utils/routing.js] and [src/utils/infinite-scroll.js] are not part
    of this file: the planner is parametric in them. *)
Variable resolveUrl : string → option string → option string → option string → string.
Variable infiniteScroll : bool → list Node → IScroll.

Definition createOrdinaryPages (o : CreateOptions) (pages : list Node)
    (template : string) : M unit :=
  forEach pages (λ node,
    let u := resolveUrl (basePath o) (Some "/") (Some (slug node)) (url node) in
    createPage (mkRoute u template (PageCtx (slug node)))).

(** The route literal of [createPostPages]; [p] and [n] are [prevNodes[i]]
    and [nextNodes[i]]. *)
Definition postRoute (o : CreateOptions) (tags : list Node) (template : string)
    (ampPath : string) (collectionPaths : gmap string (option string))
    (p n node : Node) : Route :=
  let cpath := mjoin (collectionPaths !! node_id node) in
  let u := resolveUrl (basePath o) cpath (Some (slug node)) (url node) in
  let primaryTagCount := primaryTagCountOf tags node in
  mkRoute (u +:+ ampPath) template
    (PostCtx (mkPostContext (slug node) (slug p) (slug n)
                (default "" (primary_tag node)) 3 0
                primaryTagCount collectionPaths)).

Definition createPostPages (o : CreateOptions) (posts : list Node)
    (tags : list Node) (template : string) (ampPath : string) : M unit :=
  let prevNodes := [sentinelNode] ++ take (length posts - 1) posts in
  let nextNodes := drop 1 posts ++ [sentinelNode] in
  collectionPaths ←' getCollectionPaths (Some (node_id <$> posts)) posts;
  forEachFrom 0 posts (λ i node,
    match prevNodes !! i, nextNodes !! i with
    | Some p, Some n =>
        createPage (postRoute o tags template ampPath collectionPaths p n node)
    | _, _ => throw TypeError
    end).

Definition createIndexPage (o : CreateOptions) (posts : list Node)
    (postIds : list string) (template : string) (collectionPath : option string)
    : M unit :=
  let cpath := default "/" collectionPath in
  let p := resolveUrl (basePath o) (Some cpath) None None in
  paginate (Z.of_nat (length posts)) (postsPerPage o) template
    (λ pageNumber, if decide (pageNumber = 0) then p else p +:+ "page")
    (IndexContext cpath (iScrollEnabled o) postIds 0).

(** The body of [taxonomy.forEach]: [totalItems: node.postCount], where a
    [null] count is 0 in the division. *)
Definition taxonomyPages (o : CreateOptions) (postIds : gmap string (list string))
    (template : string) (allPosts : list Node) (node : Node) : M unit :=
  let u := resolveUrl (basePath o) (Some "/") (Some (slug node)) (url node) in
  collectionPaths ←' getCollectionPaths (postIds !! slug node) allPosts;
  paginate (default 0%Z (postCount node)) (postsPerPage o) template
    (λ pageNumber, if decide (pageNumber = 0) then u else u +:+ "page")
    (TaxonomyContext (slug node) collectionPaths (iScrollEnabled o)
       (postIds !! slug node) 0).

Definition createTaxonomyPages (o : CreateOptions) (taxonomy : list Node)
    (postIds : gmap string (list string)) (template : string)
    (allPosts : list Node) : M unit :=
  forEach taxonomy (taxonomyPages o postIds template allPosts).

(** The functions above only read the nodes: they take the nodes their
    edges hold when they are called. *)
Definition createCollection (o : CreateOptions) (posts : list Node)
    (templates : Templates) (allTags : list Node)
    (collectionPath : option string) : M unit :=
  createPostPages o posts allTags (t_post templates) "";;'
  createIndexPage o posts (indexIds (infiniteScroll (iScrollEnabled o) posts))
    (t_index templates) collectionPath.

(** The [selector = () => false] default of [getCollection]. *)
Definition selectorOf (c : Collection) : Node → bool :=
  default (λ _, false) (selector c).

Definition getCollection (posts : list loc) (collectionPath : string)
    (sel : Node → bool) : M (list loc * list loc) :=
  collection ←' filterEdges sel posts;
  forEach collection (λ l, assign l collectionPath);;'
  residualPosts ←' filterEdges (λ n, negb (sel n)) posts;
  forEach residualPosts (λ l, assign l "/");;'
  ret (collection, residualPosts).

(** [collections.forEach] of [createPages], threading [collectionData]. *)
Fixpoint forEachCollection (o : CreateOptions) (templates : Templates)
    (allTags : list Node) (collections : list Collection)
    (collectionData : list loc) : M (list loc) :=
  match collections with
  | [] => ret collectionData
  | c :: cs =>
      cd ←' getCollection collectionData (path c) (selectorOf c);
      primary ←' nodesOf cd.1;
      createCollection o primary templates allTags (Some (path c));;'
      forEachCollection o templates allTags cs cd.2
  end.

(** [node.postCount > 0]; [null > 0] is false. *)
Definition hasPosts (node : Node) : bool :=
  match postCount node with
  | Some c => bool_decide (0 < c)%Z
  | None => false
  end.

Definition basePathOf (t : ThemeOptions) : string :=
  match routes t with
  | Some r => match r_basePath r with
              | Some b => if decide (b = "") then "/" else b
              | None => "/"
              end
  | None => "/"
  end.

Definition collectionsOf (t : ThemeOptions) : list Collection :=
  match routes t with
  | Some r => default [] (r_collections r)
  | None => []
  end.

(** The end of [createPages]: taxonomies are not split by collections. *)
Definition createTaxonomies (o : CreateOptions) (templates : Templates)
    (result : QueryResult) (posts : list loc) : M unit :=
  allPosts ←' nodesOf posts;
  let ids := infiniteScroll (iScrollEnabled o) allPosts in
  let postTags := filter (λ n, hasPosts n) (allGhostTag result) in
  let postAuthors := filter (λ n, hasPosts n) (allGhostAuthor result) in
  createTaxonomyPages o postTags (tagIds ids) (t_tag templates) allPosts;;'
  createTaxonomyPages o postAuthors (authorIds ids) (t_author templates) allPosts.

Definition createOptionsOf (themeOptions : ThemeOptions) (result : QueryResult)
    : CreateOptions :=
  mkCreateOptions (sc_verbose themeOptions) (basePathOf themeOptions)
    (sc_infiniteScroll themeOptions) (sm_postsPerPage result).

Definition createPages (themeOptions : ThemeOptions) (templates : Templates)
    (result : QueryResult) : M unit :=
  let collections := collectionsOf themeOptions in
  match errors result with
  | Some e => throw (FetchError e)
  | None =>
      let o := createOptionsOf themeOptions result in
      posts ←' materialize (allGhostPost result);
      createOrdinaryPages o (allGhostPage result) (t_page templates);;'
      collectionData ←' forEachCollection o templates (allGhostTag result)
                          collections posts;
      residual ←' nodesOf collectionData;
      createCollection o residual templates (allGhostTag result) None;;'
      createTaxonomies o templates result posts
  end.

End Planner.

(** ** Specification vocabulary *)

(** [m] returns [a] and hands exactly [rs] to [createPage]; it leaves the
    nodes alone and does not depend on them. *)
Definition emits {A} (m : M A) (a : A) (rs : list Route) : Prop :=
  ∀ w, m w = (Ok a, mkWorld (heap w) (writes w) (created w ++ rs)).

Definition emptyWorld : World := mkWorld [] [] [].

(** The routes [m] creates on its own. *)
Definition routesOf {A} (m : M A) : list Route := created (m emptyWorld).2.

(** A selector is stable when it does not read [collectionPath], the one
    field the planner writes. *)
Definition stable (sel : Node → bool) : Prop :=
  ∀ p n, sel (set_collectionPath p n) = sel n.

(** A node as it was fetched, whatever has been stamped on it. *)
Definition unstamped (n : Node) : Node := set_collectionPath None n.

(** [stampAll p ls h]: the heap after [node.collectionPath = p] on every edge
    of [ls]. *)
Definition stampAll (p : option string) (ls : list loc) (h : list Node) : list Node :=
  foldl (λ h' l, alter (set_collectionPath p) l h') h ls.

(** The edges every configured collection takes from [ls], in order, and the
    edges left for the default collection, asking the selectors about the
    nodes of [h]. *)
Fixpoint carve (cs : list Collection) (h : list Node) (ls : list loc)
    : list (list loc) * list loc :=
  match cs with
  | [] => ([], ls)
  | c :: cs' =>
      let rest := carve cs' h (filter (λ l, holds (λ n, negb (selectorOf c n)) h l) ls) in
      (filter (λ l, holds (selectorOf c) h l) ls :: rest.1, rest.2)
  end.

(** The path of the first collection whose selector accepts [n], [/] when
    there is none. *)
Fixpoint assignedPath (cs : list Collection) (n : Node) : string :=
  match cs with
  | [] => "/"
  | c :: cs' => if selectorOf c n then path c else assignedPath cs' n
  end.

(** The routes of a configured collection [c] with edges [g]: those
    [createCollection] creates for the nodes of [g], stamped with the path
    of [c]. *)
Definition collectionRoutes
    (resolveUrl : string → option string → option string → option string → string)
    (infiniteScroll : bool → list Node → IScroll)
    (o : CreateOptions) (tpl : Templates) (tags : list Node)
    (h : list Node) (c : Collection) (g : list loc) : list Route :=
  routesOf (createCollection resolveUrl infiniteScroll o
              (set_collectionPath (Some (path c)) <$> deref h g) tpl tags
              (Some (path c))).

(** What the whole loop over [cs], started on the edges [ls], does to the
    node at [l]. *)
Definition stampNode (cs : list Collection) (ls : list loc) (l : loc) (n : Node) : Node :=
  match cs with
  | [] => n
  | _ => if decide (l ∈ ls)
         then set_collectionPath (Some (assignedPath cs n)) n
         else n
  end.

(** The assignments of the loop over [cs], in order. *)
Fixpoint writeLog (cs : list Collection) (h : list Node) (ls : list loc)
    : list (loc * string) :=
  match cs with
  | [] => []
  | c :: cs' =>
      let coll := filter (λ l, holds (selectorOf c) h l) ls in
      let res := filter (λ l, holds (λ n, negb (selectorOf c n)) h l) ls in
      ((λ l, (l, path c)) <$> coll) ++ ((λ l, (l, "/")) <$> res) ++ writeLog cs' h res
  end.

(** [c] is the first collection of [cs] whose selector accepts [n]; it is
    preceded by [k] collections. *)
Definition firstMatch (cs : list Collection) (n : Node) (k : nat) (c : Collection) : Prop :=
  cs !! k = Some c ∧ selectorOf c n = true ∧
  ∀ j c', j < k → cs !! j = Some c' → selectorOf c' n = false.

Definition noMatch (cs : list Collection) (n : Node) : Prop :=
  ∀ c, c ∈ cs → selectorOf c n = false.

(** The values assigned to the [collectionPath] of the node at [l], in the
    order of a log. *)
Definition writesTo (l : loc) (log : list (loc * string)) : list string :=
  snd <$> filter (λ e, e.1 = l) log.

(** [rs] are the pages of an index of [total] items with [perPage] items a
    page and the root path [root]: there are [max 1 c] of them, [c] being
    the ceiling of [total / perPage]; page [n] carries its pagination
    context; page 0 has the path [root] and a later page [n] the path
    [root ++ "page/" ++ (n + 1)]. *)
Definition paginated (total perPage : Z) (root : string) (rs : list Route) : Prop :=
  ∃ c : Z,
    (perPage * (c - 1) < total ≤ perPage * c)%Z ∧
    Z.of_nat (length rs) = Z.max 1 c ∧
    ∀ n r, rs !! n = Some r →
      (∃ pass, route_context r =
         PaginatedCtx (mkPaginationContext n total perPage
                         (Z.of_nat n * perPage) (route_path r)) pass) ∧
      route_path r = match n with
                     | 0 => root
                     | S _ => (root +:+ "page") +:+ "/" +:+ pretty (S n)
                     end.


(** The pages [paginate] creates for the tag or author [node] once its
    table [m] has been looked up. *)
Definition taxonomyRoutes
    (resolveUrl : string → option string → option string → option string → string)
    (o : CreateOptions) (postIds : gmap string (list string)) (template : string)
    (m : gmap string (option string)) (node : Node) : list Route :=
  let u := resolveUrl (basePath o) (Some "/") (Some (slug node)) (url node) in
  pageRoute (default 0%Z (postCount node)) (postsPerPage o) template
    (λ pageNumber, if decide (pageNumber = 0) then u else u +:+ "page")
    (TaxonomyContext (slug node) m (iScrollEnabled o) (postIds !! slug node) 0)
  <$> seq 0 (numberOfPages (default 0%Z (postCount node)) (postsPerPage o)).

(** [n] is the first node of [posts] whose id is [i]. *)
Definition firstWithId (i : string) (posts : list Node) (n : Node) : Prop :=
  ∃ l1 l2, posts = l1 ++ n :: l2 ∧ node_id n = i ∧ ∀ n', n' ∈ l1 → node_id n' ≠ i.

(** [t] is the first node of [tags] whose slug is [s]. *)
Definition firstWithSlug (s : string) (tags : list Node) (t : Node) : Prop :=
  ∃ l1 l2, tags = l1 ++ t :: l2 ∧ slug t = s ∧ ∀ t', t' ∈ l1 → slug t' ≠ s.

(** The content graph of a second run over the same node objects: the
    posts are the nodes as the first run left them. *)
Definition refetched (res : QueryResult) (posts : list Node) : QueryResult :=
  mkQueryResult (errors res) (sm_postsPerPage res) (allGhostPage res) posts
    (allGhostTag res) (allGhostAuthor res).

(** ** Sample content, used to exercise the statements below *)

(** A resolver and an indexer to run the planner with: instances of the two
    parameters, not the code of the repository.  With the feature disabled
    the indexer returns the empty structures of section 4.5 of the
    specification. *)

Definition sampleResolve (b : string) (c s u : option string) : string :=
  match u with
  | Some x => b +:+ x
  | None => b +:+ default "/" c +:+ default "" s
  end.

Definition sampleScroll (enabled : bool) (posts : list Node) : IScroll :=
  if enabled
  then mkIScroll (node_id <$> posts)
         (foldr (λ n m, foldr (λ t m', <[t := node_id n :: default [] (m' !! t)]> m')
                          m (tags n)) ∅ posts)
         ∅
  else disabledScroll.

Definition samplePost (i : string) (ts : list string) : Node :=
  mkNode i ("post-" +:+ i) None ts (head ts) None None.

Definition sampleTag (s : string) (c : option Z) : Node :=
  mkNode s s None [] None c None.

Definition sampleTemplates : Templates :=
  mkTemplates "page.js" "post.js" "index.js" "tag.js" "author.js".

Definition sampleOptions : CreateOptions := mkCreateOptions false "/" false 3.

Definition postA : Node := samplePost "a" [].
Definition postB : Node := samplePost "b" ["news"].
Definition postC : Node := samplePost "c" ["quiet"].

Definition sampleTags : list Node :=
  [sampleTag "news" (Some 2%Z); sampleTag "quiet" None; sampleTag "idle" (Some 0%Z)].

Definition hasTag (s : string) (n : Node) : bool := bool_decide (s ∈ tags n).

Definition sampleResult : QueryResult :=
  mkQueryResult None 3 [] [postA; postB; postC] sampleTags [].

(** No [routes] option: no configured collection. *)
Definition plainTheme : ThemeOptions := mkThemeOptions None false true.

(** One collection, for the posts tagged [news]. *)
Definition newsTheme : ThemeOptions :=
  mkThemeOptions
    (Some (mkThemeRoutes (Some "/blog/")
             (Some [mkCollection "/news/" (Some (hasTag "news"))])))
    false true.

(** Two collections; the first takes nothing, the second the posts tagged
    [quiet]. *)
Definition twoTheme : ThemeOptions :=
  mkThemeOptions
    (Some (mkThemeRoutes (Some "/blog/")
             (Some [mkCollection "/loud/" (Some (hasTag "loud"));
                    mkCollection "/quiet/" (Some (hasTag "quiet"))])))
    false true.

(** Two collections that overlap: the second accepts every post. *)
Definition overlapTheme : ThemeOptions :=
  mkThemeOptions
    (Some (mkThemeRoutes (Some "/blog/")
             (Some [mkCollection "/news/" (Some (hasTag "news"));
                    mkCollection "/all/" (Some (λ _, true))])))
    false true.


(** A selector that reads the stamp: it accepts the posts that carry none. *)
Definition unstampedOnly (n : Node) : bool :=
  match collectionPath n with
  | Some _ => false
  | None => true
  end.

Definition stampReadingTheme : ThemeOptions :=
  mkThemeOptions
    (Some (mkThemeRoutes (Some "/blog/")
             (Some [mkCollection "/fresh/" (Some unstampedOnly)])))
    false true.

(** Two collections whose selectors both accept every post as it is
    fetched; the first one reads the stamp. *)
Definition freshThenAllTheme : ThemeOptions :=
  mkThemeOptions
    (Some (mkThemeRoutes (Some "/blog/")
             (Some [mkCollection "/fresh/" (Some unstampedOnly);
                    mkCollection "/all/" (Some (λ _, true))])))
    false true.

(** ** The configuration node ([sourceNodes]) *)

(** An option of the theme as JavaScript has it: not given ([undefined]),
    [null], or a value.  The defaults of a destructuring pattern replace
    [undefined] only, while [&&] and [||] take [null] and [undefined]
    alike. *)
Inductive JsOpt (A : Type) :=
| JsUndefined
| JsNull
| JsVal (a : A).
Arguments JsUndefined {A}.
Arguments JsNull {A}.
Arguments JsVal {A} a.

(** The [routes] option of the theme. *)
Record RoutesOption := mkRoutesOption {
  ro_basePath : JsOpt string;
  ro_collections : option (list Collection);
}.

(** What [x && ...] and [x || ...] see of [x]. *)
Definition truthyOpt {A} (x : JsOpt A) : option A :=
  match x with
  | JsVal a => Some a
  | _ => None
  end.

(** The [routes] option as [createPages] reads it, through
    [routes && routes.basePath || `/`] and
    [routes && routes.collections || []]. *)
Definition pagesRoutes (routes : JsOpt RoutesOption) : option ThemeRoutes :=
  (λ r, mkThemeRoutes (truthyOpt (ro_basePath r)) (ro_collections r)) <$>
  truthyOpt routes.

(** The [config] object of [sourceNodes]. *)
Record GhostConfig := mkGhostConfig {
  gc_basePath : string;
}.

Record NodeInternal := mkNodeInternal {
  in_type : string;
  in_contentDigest : string;
  in_content : string;
  in_description : string;
}.

(** The object handed to [createNode]: the fields of [config], spread, and
    the fields Gatsby asks for. *)
Record ConfigNode := mkConfigNode {
  cn_config : GhostConfig;
  cn_id : string;
  cn_parent : option string;
  cn_children : list string;
  cn_internal : NodeInternal;
}.

(** The calls [sourceNodes] has made to [createTypes] and to [createNode]. *)
Record SourceLog := mkSourceLog {
  typesCreated : list string;
  nodesCreated : list ConfigNode;
}.

(** The schema [sourceNodes] hands to [createTypes]. *)
Definition ghostConfigTypes : string :=
  "
        type GhostConfig implements Node @dontinfer {
            basePath: String!
        }
    ".

(** The value of [basePath] after [const { basePath = `/` } = routes]: a
    string or [null]. *)
Inductive BaseArg :=
| BaseNull
| BaseStr (s : string).

(** [const { basePath = `/` } = routes], with the [routes = {}] default of
    the parameter.  Only [undefined] is replaced by a default; a [routes]
    that is [null] cannot be destructured. *)
Definition sourceBasePath (routes : JsOpt RoutesOption) : Result BaseArg :=
  match routes with
  | JsUndefined => Ok (BaseStr "/")
  | JsNull => Throw TypeError
  | JsVal r =>
      match ro_basePath r with
      | JsUndefined => Ok (BaseStr "/")
      | JsNull => Ok BaseNull
      | JsVal b => Ok (BaseStr b)
      end
  end.

Section SourceNodes.

(** [resolveUrl] as the planner has it, and what [resolveUrl(null)] does:
    [src/utils/routing.js] decides both.  [createContentDigest] (of
    gatsby-core-utils) and [JSON.stringify] are parameters too. *)
Variable resolveUrl : string → option string → option string → option string → string.
Variable resolveUrlNull : Result string.
Variable createContentDigest stringify : GhostConfig → string.

(** [resolveUrl(basePath)] *)
Definition resolveBase (b : BaseArg) : Result string :=
  match b with
  | BaseNull => resolveUrlNull
  | BaseStr s => Ok (resolveUrl s None None None)
  end.

(** The node of [createNode] for a resolved base path. *)
Definition configNode (u : string) : ConfigNode :=
  let config := mkGhostConfig u in
  mkConfigNode config "gatsby-theme-try-ghost-config" None []
    (mkNodeInternal "ghostConfig" (createContentDigest config) (stringify config)
       "Ghost Config").

(** [sourceNodes]: its outcome and the calls it has made. *)
Definition sourceNodes (routes : JsOpt RoutesOption) : Result unit * SourceLog :=
  match sourceBasePath routes with
  | Throw e => (Throw e, mkSourceLog [] [])
  | Ok b =>
      match resolveBase b with
      | Throw e => (Throw e, mkSourceLog [ghostConfigTypes] [])
      | Ok u => (Ok tt, mkSourceLog [ghostConfigTypes] [configNode u])
      end
  end.

End SourceNodes.

(** The [routes] option with an empty, a plain, and a [null] base path. *)
Definition emptyBaseRoutes : JsOpt RoutesOption :=
  JsVal (mkRoutesOption (JsVal "") None).

Definition blogBaseRoutes : JsOpt RoutesOption :=
  JsVal (mkRoutesOption (JsVal "/blog/") None).

Definition nullBaseRoutes : JsOpt RoutesOption :=
  JsVal (mkRoutesOption JsNull None).
(** ** Computations that only create pages *)

Lemma emits_ret {A} (a : A) : emits (ret a) a [].
Proof. intros [hh ws cs]. unfold ret. simpl. by rewrite app_nil_r. Qed.

Lemma emits_bind {A B} (m : M A) (k : A → M B) a b rs rs' :
  emits m a rs → emits (k a) b rs' → emits (bind m k) b (rs ++ rs').
Proof.
  intros Hm Hk w. unfold bind. rewrite (Hm w).
  simpl. rewrite Hk. simpl. by rewrite app_assoc.
Qed.

Lemma emits_createPage r : emits (createPage r) tt [r].
Proof. by intros w. Qed.

Lemma emits_forEachFrom {A} (xs : list A) (f : nat → A → M unit)
    (g : nat → A → list Route) i :
  (∀ k x, xs !! k = Some x → emits (f (i + k) x) tt (g (i + k) x)) →
  emits (forEachFrom i xs f) tt (concat (imap (λ k, g (i + k)) xs)).
Proof.
  revert i. induction xs as [|x xs IH]; intros i Hf; simpl.
  - apply emits_ret.
  - rewrite Nat.add_0_r. apply (emits_bind _ _ tt).
    + specialize (Hf 0 x eq_refl). by rewrite Nat.add_0_r in Hf.
    + erewrite imap_ext; [apply (IH (S i))|].
      * intros k y Hk. specialize (Hf (S k) y Hk).
        by rewrite Nat.add_succ_r in Hf.
      * intros k y _. simpl. by rewrite Nat.add_succ_r.
Qed.

Lemma emits_forEach {A} (xs : list A) (f : A → M unit) (g : A → list Route) :
  (∀ x, x ∈ xs → emits (f x) tt (g x)) →
  emits (forEach xs f) tt (concat (g <$> xs)).
Proof.
  intros Hf. unfold forEach. rewrite <- (imap_const g xs).
  apply (emits_forEachFrom xs (λ _, f) (λ _, g) 0).
  intros k x Hk. apply Hf. by eapply list_elem_of_lookup_2.
Qed.

(** ** Lookups *)

Lemma find_Some_first {A} (P : A → bool) (l : list A) (x : A) :
  List.find P l = Some x ↔
  ∃ l1 l2, l = l1 ++ x :: l2 ∧ P x = true ∧ ∀ y, y ∈ l1 → P y = false.
Proof.
  induction l as [|a l IH]; simpl.
  - split; [done|]. intros (l1 & l2 & Hl & _). by destruct l1.
  - destruct (P a) eqn:Ha.
    + split.
      * intros [= ->]. exists [], l. split_and!; [done|done|]. by intros y ?%elem_of_nil.
      * intros (l1 & l2 & Hl & Hx & Hl1). destruct l1 as [|b l1]; simplify_eq/=; [done|].
        rewrite Hl1 in Ha; [done|]. apply list_elem_of_here.
    + rewrite IH. split.
      * intros (l1 & l2 & -> & Hx & Hl1). exists (a :: l1), l2. split_and!; [done|done|].
        intros y [->|Hy]%elem_of_cons; auto.
      * intros (l1 & l2 & Hl & Hx & Hl1). destruct l1 as [|b l1]; simplify_eq/=.
        { congruence. }
        exists l1, l2. split_and!; [done|done|]. intros y Hy. apply Hl1. by apply list_elem_of_further.
Qed.

Lemma find_None_all {A} (P : A → bool) (l : list A) :
  List.find P l = None ↔ ∀ y, y ∈ l → P y = false.
Proof.
  induction l as [|a l IH]; simpl.
  - split; [|done]. by intros _ y ?%elem_of_nil.
  - destruct (P a) eqn:Ha.
    + split; [done|]. intros H. rewrite H in Ha; [done|]. apply list_elem_of_here.
    + rewrite IH. split.
      * intros H y [->|Hy]%elem_of_cons; auto.
      * intros H y Hy. apply H. by apply list_elem_of_further.
Qed.

Lemma findById_first i posts n : findById i posts = Some n ↔ firstWithId i posts n.
Proof.
  unfold findById, firstWithId. rewrite find_Some_first.
  split; intros (l1 & l2 & Hl & Hn & Hl1); exists l1, l2; split_and!; try done.
  - by apply bool_decide_eq_true in Hn.
  - intros n' Hn'. specialize (Hl1 n' Hn'). by apply bool_decide_eq_false in Hl1.
  - by apply bool_decide_eq_true.
  - intros n' Hn'. apply bool_decide_eq_false. by apply Hl1.
Qed.

Lemma findById_None i posts :
  findById i posts = None ↔ ∀ n, n ∈ posts → node_id n ≠ i.
Proof.
  unfold findById. rewrite find_None_all.
  split; intros H n Hn; specialize (H n Hn).
  - by apply bool_decide_eq_false in H.
  - by apply bool_decide_eq_false.
Qed.

Lemma findById_own posts n : n ∈ posts → is_Some (findById (node_id n) posts).
Proof.
  intros Hn. destruct (findById (node_id n) posts) eqn:E; [by eexists|].
  rewrite findById_None in E. by specialize (E n Hn).
Qed.

Lemma collectPaths_throw ids posts acc i :
  i ∈ ids → findById i posts = None → collectPaths ids posts acc = Throw TypeError.
Proof.
  revert acc. induction ids as [|j ids IH]; intros acc Hi Hnone; [by apply elem_of_nil in Hi|].
  simpl. destruct (findById j posts) as [n|] eqn:Ej; [|done].
  apply IH; [|done]. apply elem_of_cons in Hi as [->|Hi]; [congruence|done].
Qed.

Lemma collectPaths_ok ids posts acc :
  (∀ i, i ∈ ids → is_Some (findById i posts)) →
  ∃ m, collectPaths ids posts acc = Ok m ∧
       ∀ i, m !! i = if decide (i ∈ ids) then collectionPath <$> findById i posts
                     else acc !! i.
Proof.
  revert acc. induction ids as [|j ids IH]; intros acc Hall; simpl.
  - exists acc. split; [done|]. intros i. destruct (decide (i ∈ [])) as [H|H]; [by apply elem_of_nil in H|done].
  - destruct (Hall j) as [n Hn]; [apply list_elem_of_here|]. rewrite Hn.
    destruct (IH (<[j:=collectionPath n]> acc)) as (m & Hm & Hlook).
    { intros i Hi. apply Hall. by apply list_elem_of_further. }
    exists m. split; [done|]. intros i. rewrite Hlook.
    destruct (decide (i ∈ ids)) as [Hi|Hi].
    + rewrite decide_True; [done|]. by apply list_elem_of_further.
    + destruct (decide (i = j)) as [->|Hne].
      * rewrite decide_True by apply list_elem_of_here. by rewrite lookup_insert_eq, Hn.
      * rewrite decide_False; [by rewrite lookup_insert_ne|].
        intros [->|?]%elem_of_cons; done.
Qed.

Lemma getCollectionPaths_own posts :
  ∃ m, emits (getCollectionPaths (Some (node_id <$> posts)) posts) m [] ∧
       ∀ n, n ∈ posts → m !! node_id n = collectionPath <$> findById (node_id n) posts.
Proof.
  destruct (collectPaths_ok (node_id <$> posts) posts ∅) as (m & Hm & Hlook).
  { intros i (n & -> & Hn)%list_elem_of_fmap. by apply findById_own. }
  exists m. split.
  - unfold getCollectionPaths. rewrite Hm. apply emits_ret.
  - intros n Hn. rewrite Hlook, decide_True; [done|]. by apply list_elem_of_fmap_2.
Qed.

Lemma concat_imap_singleton {A B} (G : nat → A → B) (xs : list A) :
  concat (imap (λ k x, [G k x]) xs) = imap G xs.
Proof.
  revert G. induction xs as [|x xs IH]; intros G; simpl; [done|].
  f_equal. apply (IH (G ∘ S)).
Qed.

Lemma emits_forEachFrom_one {A} (xs : list A) (f : nat → A → M unit)
    (g : nat → A → Route) i :
  (∀ k x, xs !! k = Some x → emits (f (i + k) x) tt [g (i + k) x]) →
  emits (forEachFrom i xs f) tt (imap (λ k, g (i + k)) xs).
Proof.
  intros Hf. rewrite <- concat_imap_singleton.
  by apply (emits_forEachFrom xs f (λ j x, [g j x]) i).
Qed.

(** ** Post pages *)

Lemma prevNodes_lookup (posts : list Node) i :
  i < length posts →
  ([sentinelNode] ++ take (length posts - 1) posts) !! i =
  Some (match i with 0 => sentinelNode | S j => default sentinelNode (posts !! j) end).
Proof.
  intros Hi. destruct i as [|j]; [done|]. simpl.
  rewrite lookup_take_lt by lia.
  destruct (lookup_lt_is_Some_2 posts j) as [x Hx]; [lia|]. by rewrite Hx.
Qed.

Lemma nextNodes_lookup (posts : list Node) i :
  i < length posts →
  (drop 1 posts ++ [sentinelNode]) !! i = Some (default sentinelNode (posts !! S i)).
Proof.
  intros Hi. destruct (decide (S i < length posts)) as [Hlt|Hge].
  - rewrite lookup_app_l by (rewrite length_drop; lia). rewrite lookup_drop.
    destruct (lookup_lt_is_Some_2 posts (S i)) as [x Hx]; [lia|]. simpl. by rewrite Hx.
  - rewrite lookup_app_r by (rewrite length_drop; lia). rewrite length_drop.
    replace (i - (length posts - 1)) with 0 by lia.
    rewrite (lookup_ge_None_2 posts (S i)) by lia. done.
Qed.

Section PostPages.
Variable resolveUrl : string → option string → option string → option string → string.

Lemma createPostPages_emits o posts tags tpl amp :
  ∃ paths,
    (∀ n, n ∈ posts →
       paths !! node_id n = collectionPath <$> findById (node_id n) posts) ∧
    emits (getCollectionPaths (Some (node_id <$> posts)) posts) paths [] ∧
    emits (createPostPages resolveUrl o posts tags tpl amp) tt
      (imap (λ i node,
         postRoute resolveUrl o tags tpl amp paths
           (match i with 0 => sentinelNode | S j => default sentinelNode (posts !! j) end)
           (default sentinelNode (posts !! S i)) node) posts).
Proof.
  destruct (getCollectionPaths_own posts) as (paths & Hpaths & Hlook).
  exists paths. split; [done|]. split; [done|].
  unfold createPostPages.
  rewrite <- (app_nil_l (imap _ posts)).
  eapply emits_bind; [exact Hpaths|].
  apply (emits_forEachFrom_one posts _
           (λ i node, postRoute resolveUrl o tags tpl amp paths
             (match i with 0 => sentinelNode | S j => default sentinelNode (posts !! j) end)
             (default sentinelNode (posts !! S i)) node) 0).
  intros k x Hk. simpl.
  apply lookup_lt_Some in Hk as Hlt.
  pose proof (prevNodes_lookup posts k Hlt) as Hp. simpl in Hp. rewrite Hp.
  rewrite (nextNodes_lookup posts k Hlt).
  apply emits_createPage.
Qed.

End PostPages.

Section PostPageClaims.
Variable resolveUrl : string → option string → option string → option string → string.

(** The run of [createPostPages] and its [i]-th route. *)
Lemma createPostPages_route o posts tags tpl amp w i node :
  posts !! i = Some node →
  let out := createPostPages resolveUrl o posts tags tpl amp w in
  out.1 = Ok tt ∧
  heap out.2 = heap w ∧
  length (created out.2) = length (created w) + length posts ∧
  ∃ paths,
    created out.2 !! (length (created w) + i) =
    Some (postRoute resolveUrl o tags tpl amp paths
            (match i with 0 => sentinelNode | S j => default sentinelNode (posts !! j) end)
            (default sentinelNode (posts !! S i)) node).
Proof.
  intros Hi out.
  destruct (createPostPages_emits resolveUrl o posts tags tpl amp)
    as (paths & _ & _ & Hrun).
  subst out. rewrite (Hrun w). simpl.
  split_and!; [done|done| |].
  - by rewrite length_app, length_imap.
  - exists paths. rewrite lookup_app_r by lia.
    replace (length (created w) + i - length (created w)) with i by lia.
    by rewrite list_lookup_imap, Hi.
Qed.

(** C4: the route of post [i] of a collection links to the slug of post
    [i-1] as [prev] (the empty string for the first post) and to the slug of
    post [i+1] as [next] (the empty string for the last post). *)
Theorem prev_next_boundary o posts tags tpl amp w i node :
  posts !! i = Some node →
  let out := createPostPages resolveUrl o posts tags tpl amp w in
  out.1 = Ok tt ∧
  length (created out.2) = length (created w) + length posts ∧
  ∃ r c, created out.2 !! (length (created w) + i) = Some r ∧
    route_context r = PostCtx c ∧ pc_slug c = slug node ∧
    (i = 0 → prev c = "") ∧
    (∀ j p, i = S j → posts !! j = Some p → prev c = slug p) ∧
    (S i = length posts → next c = "") ∧
    (∀ n, posts !! S i = Some n → next c = slug n).
Proof.
  intros Hi out.
  destruct (createPostPages_route o posts tags tpl amp w i node Hi)
    as (Hok & _ & Hlen & paths & Hr).
  split; [done|]. split; [done|].
  eexists _, _. split; [exact Hr|]. simpl. split_and!; try done.
  - by intros ->.
  - intros j p -> Hj. by rewrite Hj.
  - intros Hlast. by rewrite (lookup_ge_None_2 posts (S i)) by lia.
  - intros n Hn. by rewrite Hn.
Qed.

Lemma primaryTagCountOf_cases tags node :
  (primary_tag node = None → primaryTagCountOf tags node = 0%Z) ∧
  (∀ s, primary_tag node = Some s → (∀ t, t ∈ tags → slug t ≠ s) →
        primaryTagCountOf tags node = 0%Z) ∧
  (∀ s t, primary_tag node = Some s → firstWithSlug s tags t →
        postCount t = None → primaryTagCountOf tags node = 0%Z) ∧
  (∀ s t k, primary_tag node = Some s → firstWithSlug s tags t →
        postCount t = Some k → primaryTagCountOf tags node = k).
Proof.
  unfold primaryTagCountOf. split_and!.
  - intros ->.
    by rewrite (proj2 (find_None_all (λ _, false) tags)).
  - intros s -> Hno.
    rewrite (proj2 (find_None_all (λ t, bool_decide (slug t = s)) tags)); [done|].
    intros t Ht. apply bool_decide_eq_false. by apply Hno.
  - intros s t -> (l1 & l2 & Hl & Hs & Hl1) Hc.
    rewrite (proj2 (find_Some_first (λ t, bool_decide (slug t = s)) tags t)).
    + by rewrite Hc.
    + exists l1, l2. split_and!; [done|by apply bool_decide_eq_true|].
      intros y Hy. apply bool_decide_eq_false. by apply Hl1.
  - intros s t k -> (l1 & l2 & Hl & Hs & Hl1) Hc.
    rewrite (proj2 (find_Some_first (λ t, bool_decide (slug t = s)) tags t)).
    + by rewrite Hc.
    + exists l1, l2. split_and!; [done|by apply bool_decide_eq_true|].
      intros y Hy. apply bool_decide_eq_false. by apply Hl1.
Qed.

(** C7: the [primaryTagCount] of a post route is the [postCount] of the
    first tag whose slug is the post's primary-tag slug; it is 0 when the
    post has no primary tag, when no tag has that slug, and when the count
    of the matching tag is null. *)
Theorem primary_tag_count_fallback o posts tags tpl amp w i node :
  posts !! i = Some node →
  let out := createPostPages resolveUrl o posts tags tpl amp w in
  out.1 = Ok tt ∧
  ∃ r c, created out.2 !! (length (created w) + i) = Some r ∧
    route_context r = PostCtx c ∧ pc_slug c = slug node ∧
    (primary_tag node = None → primaryTagCount c = 0%Z) ∧
    (∀ s, primary_tag node = Some s → (∀ t, t ∈ tags → slug t ≠ s) →
          primaryTagCount c = 0%Z) ∧
    (∀ s t, primary_tag node = Some s → firstWithSlug s tags t →
          postCount t = None → primaryTagCount c = 0%Z) ∧
    (∀ s t k, primary_tag node = Some s → firstWithSlug s tags t →
          postCount t = Some k → primaryTagCount c = k).
Proof.
  intros Hi out.
  destruct (createPostPages_route o posts tags tpl amp w i node Hi)
    as (Hok & _ & Hlen & paths & Hr).
  split; [done|].
  eexists _, _. split; [exact Hr|]. simpl. split; [done|]. split; [done|].
  apply primaryTagCountOf_cases.
Qed.

End PostPageClaims.

Lemma prev_next_boundary_witness :
  let out := createPostPages sampleResolve sampleOptions [postA; postB; postC]
               sampleTags "post.js" "" emptyWorld in
  [postA; postB; postC] !! 1 = Some postB ∧
  (prev <$> (omap (λ r, match route_context r with PostCtx c => Some c | _ => None end)
               (created out.2))) = [""; "post-a"; "post-b"] ∧
  (next <$> (omap (λ r, match route_context r with PostCtx c => Some c | _ => None end)
               (created out.2))) = ["post-b"; "post-c"; ""] ∧
  ∃ r c, created out.2 !! 1 = Some r ∧ route_context r = PostCtx c ∧
         prev c = slug postA ∧ next c = slug postC.
Proof.
  intros out.
  destruct (prev_next_boundary sampleResolve sampleOptions [postA; postB; postC]
              sampleTags "post.js" "" emptyWorld 1 postB eq_refl)
    as (_ & _ & r & c & Hr & Hc & _ & _ & Hprev & _ & Hnext).
  split; [reflexivity|]. split; [vm_compute; reflexivity|].
  split; [vm_compute; reflexivity|].
  exists r, c. split; [exact Hr|]. split; [exact Hc|]. split.
  - exact (Hprev 0 postA eq_refl eq_refl).
  - exact (Hnext postC eq_refl).
Defined.

Lemma primary_tag_count_fallback_witness :
  let out := createPostPages sampleResolve sampleOptions [postA; postB; postC]
               sampleTags "post.js" "" emptyWorld in
  [postA; postB; postC] !! 1 = Some postB ∧
  (primaryTagCount <$>
     (omap (λ r, match route_context r with PostCtx c => Some c | _ => None end)
        (created out.2))) = [0%Z; 2%Z; 0%Z] ∧
  ∃ r c, created out.2 !! 1 = Some r ∧ route_context r = PostCtx c ∧
         primaryTagCount c = 2%Z.
Proof.
  intros out.
  destruct (primary_tag_count_fallback sampleResolve sampleOptions
              [postA; postB; postC] sampleTags "post.js" "" emptyWorld 1 postB eq_refl)
    as (_ & r & c & Hr & Hc & _ & _ & _ & _ & Hk).
  split; [reflexivity|]. split; [vm_compute; reflexivity|].
  exists r, c. split; [exact Hr|]. split; [exact Hc|].
  apply (Hk "news" (sampleTag "news" (Some 2%Z)) 2%Z); [reflexivity| |reflexivity].
  exists [], [sampleTag "quiet" None; sampleTag "idle" (Some 0%Z)].
  split; [reflexivity|]. split; [reflexivity|]. by intros t ?%elem_of_nil.
Defined.

(** ** Fetch failure *)

Section FetchClaims.
Variable resolveUrl : string → option string → option string → option string → string.
Variable infiniteScroll : bool → list Node → IScroll.

(** C8: when the fetch result carries errors, [createPages] throws one
    error made of them before anything else happens: [createPage] is never
    called and no node is touched. *)
Theorem fetch_failure_aborts themeOptions templates result w e :
  errors result = Some e →
  createPages resolveUrl infiniteScroll themeOptions templates result w =
    (Throw (FetchError e), w) ∧
  created (createPages resolveUrl infiniteScroll themeOptions templates result w).2 =
    created w.
Proof.
  intros He. unfold createPages. rewrite He. by split.
Qed.

End FetchClaims.

Lemma fetch_failure_aborts_witness :
  let result := mkQueryResult (Some ["GraphQL: timeout"]) 3 [postA] [postB; postC]
                  sampleTags [] in
  let themeOptions := mkThemeOptions None false false in
  errors result = Some ["GraphQL: timeout"] ∧
  createPages sampleResolve sampleScroll themeOptions sampleTemplates result emptyWorld =
    (Throw (FetchError ["GraphQL: timeout"]), emptyWorld).
Proof.
  intros result themeOptions. split; [reflexivity|].
  apply (fetch_failure_aborts sampleResolve sampleScroll themeOptions sampleTemplates
           result emptyWorld ["GraphQL: timeout"]).
  reflexivity.
Defined.

(** ** Pagination *)

Lemma concat_fmap_singleton {A B} (g : A → B) (xs : list A) :
  concat ((λ x, [g x]) <$> xs) = g <$> xs.
Proof. induction xs as [|x xs IH]; simpl; [done|]. by f_equal. Qed.

Lemma paginate_emits total perPage tpl prefix pass :
  emits (paginate total perPage tpl prefix pass) tt
    (pageRoute total perPage tpl prefix pass <$> seq 0 (numberOfPages total perPage)).
Proof.
  unfold paginate. rewrite <- concat_fmap_singleton.
  apply (emits_forEach _ _ (λ n, [pageRoute total perPage tpl prefix pass n])).
  intros n _. apply emits_createPage.
Qed.


(** [ceilDiv] is the ceiling of the quotient. *)
Lemma ceilDiv_spec a b :
  (0 < b)%Z → (b * (ceilDiv a b - 1) < a ≤ b * ceilDiv a b)%Z.
Proof.
  intros Hb. unfold ceilDiv.
  pose proof (Z.div_mod (- a) b ltac:(lia)) as Hdm.
  pose proof (Z.mod_pos_bound (- a) b Hb) as Hm.
  nia.
Qed.

Lemma forEach_cons {A} (x : A) (xs : list A) (f : A → M unit) :
  forEach (x :: xs) f = (f x ;;' forEach xs f).
Proof.
  unfold forEach. simpl. f_equal.
  generalize 1 0. induction xs as [|y ys IH]; intros i j; simpl; [done|].
  by rewrite (IH (S i) (S j)).
Qed.

Lemma findById_is_Some i posts : is_Some (findById i posts) ↔ i ∈ node_id <$> posts.
Proof.
  rewrite list_elem_of_fmap. split.
  - intros [n Hn]. apply findById_first in Hn as (l1 & l2 & -> & Hid & _).
    exists n. split; [done|]. set_solver.
  - intros (n & -> & Hn). by apply findById_own.
Qed.

(** [getCollectionPaths] on a defined id list: a table when every id is the
    id of some post, a [TypeError] otherwise. *)
Lemma getCollectionPaths_cases ids posts w :
  if decide (Forall (λ i, i ∈ node_id <$> posts) ids)
  then ∃ m, getCollectionPaths (Some ids) posts w = (Ok m, w) ∧
            emits (getCollectionPaths (Some ids) posts) m [] ∧
            ∀ i n, i ∈ ids → firstWithId i posts n → m !! i = Some (collectionPath n)
  else getCollectionPaths (Some ids) posts w = (Throw TypeError, w).
Proof.
  destruct (decide _) as [Hall|Hnot]; unfold getCollectionPaths.
  - destruct (collectPaths_ok ids posts ∅) as (m & Hm & Hlook).
    { intros i Hi. apply findById_is_Some. by eapply (proj1 (Forall_forall _ _) Hall). }
    exists m. rewrite Hm. split; [done|]. split; [apply emits_ret|].
    intros i n Hi Hn. rewrite Hlook, decide_True by done.
    apply findById_first in Hn. by rewrite Hn.
  - apply not_Forall_Exists in Hnot; [|apply _].
    apply Exists_exists in Hnot as (i & Hi & Hmiss).
    rewrite (collectPaths_throw ids posts ∅ i Hi); [done|].
    destruct (findById i posts) eqn:E; [|done].
    exfalso. apply Hmiss. apply findById_is_Some. by eexists.
Qed.

Section Taxonomies.
Variable resolveUrl : string → option string → option string → option string → string.

Lemma taxonomyPages_emits o postIds tpl allPosts node ids :
  postIds !! slug node = Some ids →
  Forall (λ i, i ∈ node_id <$> allPosts) ids →
  ∃ m, emits (taxonomyPages resolveUrl o postIds tpl allPosts node) tt
         (pageRoute (default 0%Z (postCount node)) (postsPerPage o) tpl
            (λ n, if decide (n = 0)
                  then resolveUrl (basePath o) (Some "/") (Some (slug node)) (url node)
                  else resolveUrl (basePath o) (Some "/") (Some (slug node)) (url node)
                       +:+ "page")
            (TaxonomyContext (slug node) m (iScrollEnabled o) (Some ids) 0)
          <$> seq 0 (numberOfPages (default 0%Z (postCount node)) (postsPerPage o))).
Proof.
  intros Hids Hall.
  pose proof (getCollectionPaths_cases ids allPosts emptyWorld) as Hc.
  rewrite decide_True in Hc by done. destruct Hc as (m & _ & Hm & _).
  exists m. unfold taxonomyPages. rewrite Hids.
  rewrite <- (app_nil_l (_ <$> seq _ _)).
  eapply emits_bind; [exact Hm|]. apply paginate_emits.
Qed.

Lemma taxonomyPages_throws o postIds tpl allPosts node w :
  (∀ ids, postIds !! slug node = Some ids →
          ¬ Forall (λ i, i ∈ node_id <$> allPosts) ids) →
  taxonomyPages resolveUrl o postIds tpl allPosts node w = (Throw TypeError, w).
Proof.
  intros Hbad. unfold taxonomyPages, bind.
  destruct (postIds !! slug node) as [ids|] eqn:E; [|done].
  pose proof (getCollectionPaths_cases ids allPosts w) as Hc.
  rewrite decide_False in Hc by auto. by rewrite Hc.
Qed.

(** Whatever the lookups do, a taxonomy run only creates pages, and the
    one error it can end in is the [TypeError] of a failed lookup. *)
Lemma createTaxonomyPages_run o taxonomy postIds tpl allPosts :
  ∃ res rs,
    (res = Ok tt ∨ res = Throw TypeError) ∧
    ∀ w, createTaxonomyPages resolveUrl o taxonomy postIds tpl allPosts w =
           (res, mkWorld (heap w) (writes w) (created w ++ rs)).
Proof.
  unfold createTaxonomyPages.
  induction taxonomy as [|node taxonomy IH].
  - exists (Ok tt), []. split; [by left|]. intros w. destruct w.
    unfold forEach, ret. simpl. by rewrite app_nil_r.
  - destruct IH as (res & rs & Hres & Hrun).
    assert (Hthrow : (∀ ids, postIds !! slug node = Some ids →
                        ¬ Forall (λ i, i ∈ node_id <$> allPosts) ids) →
      ∃ res' rs', (res' = Ok tt ∨ res' = Throw TypeError) ∧
        ∀ w, forEach (node :: taxonomy)
               (taxonomyPages resolveUrl o postIds tpl allPosts) w =
             (res', mkWorld (heap w) (writes w) (created w ++ rs'))).
    { intros Hbad. exists (Throw TypeError), []. split; [by right|]. intros w.
      rewrite forEach_cons. unfold bind. rewrite taxonomyPages_throws by done.
      destruct w; simpl. by rewrite app_nil_r. }
    destruct (postIds !! slug node) as [ids|] eqn:E.
    + destruct (decide (Forall (λ i, i ∈ node_id <$> allPosts) ids)) as [Hall|Hnot].
      * destruct (taxonomyPages_emits o postIds tpl allPosts node ids E Hall)
          as (m & Hm).
        eexists res, (_ ++ rs). split; [done|]. intros w.
        rewrite forEach_cons. unfold bind. rewrite (Hm w), Hrun. simpl.
        by rewrite app_assoc.
      * apply Hthrow. intros ids' Hids'. congruence.
    + apply Hthrow. intros ids' Hids'. congruence.
Qed.

Lemma createTaxonomyPages_throws o taxonomy postIds tpl allPosts node w :
  node ∈ taxonomy →
  (∀ ids, postIds !! slug node = Some ids →
          ¬ Forall (λ i, i ∈ node_id <$> allPosts) ids) →
  (createTaxonomyPages resolveUrl o taxonomy postIds tpl allPosts w).1 =
    Throw TypeError.
Proof.
  unfold createTaxonomyPages. revert w.
  induction taxonomy as [|x taxonomy IH]; intros w Hin Hbad.
  - by apply elem_of_nil in Hin.
  - rewrite forEach_cons. unfold bind.
    destruct (taxonomyPages resolveUrl o postIds tpl allPosts x w) as [[[]|e] w'] eqn:E.
    + apply elem_of_cons in Hin as [->|Hin].
      * rewrite taxonomyPages_throws in E by done. congruence.
      * by apply IH.
    + simpl.
      destruct (createTaxonomyPages_run o [x] postIds tpl allPosts)
        as (res & rs & Hres & Hrun).
      specialize (Hrun w).
      unfold createTaxonomyPages in Hrun. rewrite forEach_cons in Hrun.
      unfold bind in Hrun. rewrite E in Hrun.
      destruct Hres as [->| ->]; congruence.
Qed.

(** A taxonomy run serves the nodes of its list in order, each with the
    pages of its index, up to the first node whose lookup fails; it returns
    normally when there is none. *)
Lemma createTaxonomyPages_served o taxonomy postIds tpl allPosts :
  ∃ served tables res,
    length tables = length served ∧
    (∀ node, node ∈ served →
       ∃ ids, postIds !! slug node = Some ids ∧
              Forall (λ i, i ∈ node_id <$> allPosts) ids) ∧
    (res = Ok tt ∧ served = taxonomy ∨
     res = Throw TypeError ∧
     ∃ node rest, taxonomy = served ++ node :: rest ∧
       ∀ ids, postIds !! slug node = Some ids →
              ¬ Forall (λ i, i ∈ node_id <$> allPosts) ids) ∧
    ∀ w, createTaxonomyPages resolveUrl o taxonomy postIds tpl allPosts w =
           (res, mkWorld (heap w) (writes w)
                   (created w ++
                    concat (zip_with (taxonomyRoutes resolveUrl o postIds tpl)
                              tables served))).
Proof.
  unfold createTaxonomyPages.
  induction taxonomy as [|node taxonomy IH].
  - exists [], [], (Ok tt). split; [done|]. split; [by intros ? ?%elem_of_nil|].
    split; [by left|]. intros w. destruct w. unfold forEach, ret. simpl.
    by rewrite app_nil_r.
  - assert (Hthrow : (∀ ids, postIds !! slug node = Some ids →
                        ¬ Forall (λ i, i ∈ node_id <$> allPosts) ids) →
      ∃ served tables res,
        length tables = length served ∧
        (∀ node, node ∈ served →
           ∃ ids, postIds !! slug node = Some ids ∧
                  Forall (λ i, i ∈ node_id <$> allPosts) ids) ∧
        (res = Ok tt ∧ served = node :: taxonomy ∨
         res = Throw TypeError ∧
         ∃ node' rest, node :: taxonomy = served ++ node' :: rest ∧
           ∀ ids, postIds !! slug node' = Some ids →
                  ¬ Forall (λ i, i ∈ node_id <$> allPosts) ids) ∧
        ∀ w, forEach (node :: taxonomy)
               (taxonomyPages resolveUrl o postIds tpl allPosts) w =
             (res, mkWorld (heap w) (writes w)
                     (created w ++
                      concat (zip_with (taxonomyRoutes resolveUrl o postIds tpl)
                                tables served)))).
    { intros Hbad. exists [], [], (Throw TypeError).
      split; [done|]. split; [by intros ? ?%elem_of_nil|]. split.
      - right. split; [done|]. by exists node, taxonomy.
      - intros w. rewrite forEach_cons. unfold bind.
        rewrite taxonomyPages_throws by done. destruct w; simpl. by rewrite app_nil_r. }
    destruct (postIds !! slug node) as [ids|] eqn:E.
    2: { apply Hthrow. intros ids' Hids'. congruence. }
    destruct (decide (Forall (λ i, i ∈ node_id <$> allPosts) ids)) as [Hall|Hnot].
    2: { apply Hthrow. intros ids' Hids'. congruence. }
    destruct IH as (served & tables & res & Hlen & Hok & Hres & Hrun).
    destruct (taxonomyPages_emits o postIds tpl allPosts node ids E Hall) as (m & Hm).
    exists (node :: served), (m :: tables), res.
    split; [simpl; by rewrite Hlen|]. split.
    { intros node' [->|Hin]%elem_of_cons; [by exists ids|by apply Hok]. }
    split.
    { destruct Hres as [[-> ->]|[-> (node' & rest & -> & Hbad)]]; [by left|].
      right. split; [done|]. by exists node', rest. }
    intros w. rewrite forEach_cons. unfold bind. rewrite (Hm w), Hrun.
    cbn [heap writes created zip_with concat]. unfold taxonomyRoutes at 2.
    rewrite E. by rewrite app_assoc.
Qed.

(** C9: [getCollectionPaths] on an id list is a table sending every id to
    the [collectionPath] of the post with that id when every id belongs to
    some post of the list; otherwise it throws a [TypeError], and so does
    every taxonomy run in which some node has this id list. *)
Theorem lookup_fatal_on_missing_id ids allPosts w :
  if decide (Forall (λ i, i ∈ node_id <$> allPosts) ids)
  then ∃ m, getCollectionPaths (Some ids) allPosts w = (Ok m, w) ∧
            ∀ i n, i ∈ ids → firstWithId i allPosts n →
                   m !! i = Some (collectionPath n)
  else getCollectionPaths (Some ids) allPosts w = (Throw TypeError, w) ∧
       ∀ o taxonomy (postIds : gmap string (list string)) tpl node w',
         node ∈ taxonomy → postIds !! slug node = Some ids →
         (createTaxonomyPages resolveUrl o taxonomy postIds tpl allPosts w').1 =
           Throw TypeError.
Proof.
  pose proof (getCollectionPaths_cases ids allPosts w) as Hc.
  destruct (decide _) as [Hall|Hnot].
  - destruct Hc as (m & Hm & _ & Hlook). by exists m.
  - split; [done|]. intros o taxonomy postIds tpl node w' Hin Hids.
    eapply createTaxonomyPages_throws; [done|].
    intros ids' Hids'. congruence.
Qed.

End Taxonomies.

Lemma lookup_fatal_on_missing_id_witness :
  let tag := sampleTag "news" (Some 2%Z) in
  let postIds : gmap string (list string) := {[ "news" := ["b"; "zz"] ]} in
  getCollectionPaths (Some ["b"; "zz"]) [postA; postB] emptyWorld =
    (Throw TypeError, emptyWorld) ∧
  (createTaxonomyPages sampleResolve sampleOptions [tag] postIds "tag.js"
     [postA; postB] emptyWorld).1 = Throw TypeError ∧
  ∃ m, getCollectionPaths (Some ["b"; "a"]) [postA; postB] emptyWorld = (Ok m, emptyWorld).
Proof.
  intros tag postIds.
  pose proof (lookup_fatal_on_missing_id sampleResolve ["b"; "zz"] [postA; postB]
                emptyWorld) as Hbad.
  pose proof (lookup_fatal_on_missing_id sampleResolve ["b"; "a"] [postA; postB]
                emptyWorld) as Hgood.
  destruct (decide (Forall (λ i, i ∈ node_id <$> [postA; postB]) ["b"; "zz"]))
    as [Hall|_].
  { exfalso.
    assert (Hmem : "zz" ∈ ["b"; "zz"]) by apply list_elem_of_further, list_elem_of_here.
    pose proof (proj1 (Forall_forall _ _) Hall "zz" Hmem) as Hzz.
    simpl in Hzz.
    repeat (apply elem_of_cons in Hzz as [Hzz|Hzz]; [discriminate|]).
    by apply elem_of_nil in Hzz. }
  destruct (decide (Forall (λ i, i ∈ node_id <$> [postA; postB]) ["b"; "a"]))
    as [_|Hnot].
  2: { exfalso. apply Hnot. repeat constructor. }
  destruct Hbad as [Hthrow Hrun]. destruct Hgood as (m & Hm & _).
  split; [exact Hthrow|]. split.
  - apply (Hrun sampleOptions [tag] postIds "tag.js" tag emptyWorld);
      [apply list_elem_of_here|reflexivity].
  - by exists m.
Defined.

Section IndexPages.
Variable resolveUrl : string → option string → option string → option string → string.

Lemma createIndexPage_emits o posts postIds tpl cp :
  emits (createIndexPage resolveUrl o posts postIds tpl cp) tt
    (pageRoute (Z.of_nat (length posts)) (postsPerPage o) tpl
       (λ n, if decide (n = 0)
             then resolveUrl (basePath o) (Some (default "/" cp)) None None
             else resolveUrl (basePath o) (Some (default "/" cp)) None None +:+ "page")
       (IndexContext (default "/" cp) (iScrollEnabled o) postIds 0)
     <$> seq 0 (numberOfPages (Z.of_nat (length posts)) (postsPerPage o))).
Proof. unfold createIndexPage. apply paginate_emits. Qed.

Lemma pageRoute_paginated total perPage tpl root pass :
  (0 < perPage)%Z →
  paginated total perPage root
    (pageRoute total perPage tpl
       (λ n, if decide (n = 0) then root else root +:+ "page") pass
     <$> seq 0 (numberOfPages total perPage)).
Proof.
  intros Hpos. exists (ceilDiv total perPage).
  split; [by apply ceilDiv_spec|].
  rewrite length_fmap, length_seq. unfold numberOfPages.
  split; [lia|].
  intros n r Hr. rewrite list_lookup_fmap in Hr.
  destruct (seq 0 _ !! n) as [k|] eqn:Hk; [|done].
  apply lookup_seq in Hk as [-> _]. simpl in Hr. injection Hr as <-.
  split; [eexists; reflexivity|]. simpl. by destruct n.
Qed.

(** C5: with a positive page size, the index of a collection of
    [totalItems] posts and the index of every tag or author a taxonomy run
    serves, over the [postCount] of the node, have
    [max 1 (ceil (totalItems / itemsPerPage))] pages, [ceil] being the
    least [c] with [totalItems <= itemsPerPage * c]; page 0 has the root
    path of the collection, or of the tag or author, and page [n >= 1] the
    path [root ++ "page/" ++ (n+1)].  A taxonomy run serves the nodes of its
    list in order, all of them unless the lookup of one fails. *)
Theorem pagination_page_count_and_paths o posts postIds tpl cp
    taxonomy tableIds ttpl allPosts w :
  (0 < postsPerPage o)%Z →
  (∃ rs,
     createIndexPage resolveUrl o posts postIds tpl cp w =
       (Ok tt, mkWorld (heap w) (writes w) (created w ++ rs)) ∧
     paginated (Z.of_nat (length posts)) (postsPerPage o)
       (resolveUrl (basePath o) (Some (default "/" cp)) None None) rs ∧
     (posts = [] → length rs = 1)) ∧
  (let out := createTaxonomyPages resolveUrl o taxonomy tableIds ttpl allPosts w in
   ∃ served groups,
     (out.1 = Ok tt ∧ served = taxonomy ∨
      out.1 = Throw TypeError ∧
      ∃ node rest, taxonomy = served ++ node :: rest ∧
        ∀ ids, tableIds !! slug node = Some ids →
               ¬ Forall (λ i, i ∈ node_id <$> allPosts) ids) ∧
     created out.2 = created w ++ concat groups ∧
     Forall2 (λ node g,
       Forall (λ r, component r = ttpl) g ∧
       ∀ total, postCount node = Some total →
         paginated total (postsPerPage o)
           (resolveUrl (basePath o) (Some "/") (Some (slug node)) (url node)) g)
       served groups).
Proof.
  intros Hpos. split.
  - eexists. split; [apply createIndexPage_emits|]. split.
    + by apply pageRoute_paginated.
    + intros ->. reflexivity.
  - intros out.
    destruct (createTaxonomyPages_served resolveUrl o taxonomy tableIds ttpl allPosts)
      as (served & tables & res & Hlen & _ & Hres & Hrun).
    subst out. rewrite Hrun. cbn [fst snd created].
    exists served, (zip_with (taxonomyRoutes resolveUrl o tableIds ttpl) tables served).
    split; [exact Hres|]. split; [done|].
    clear Hres Hrun. revert tables Hlen.
    induction served as [|node served IH]; intros [|m tables] Hlen;
      try discriminate; cbn [zip_with]; constructor.
    + split.
      * unfold taxonomyRoutes. apply Forall_fmap, Forall_forall. by intros n _.
      * intros total Htotal. unfold taxonomyRoutes. rewrite Htotal.
        by apply pageRoute_paginated.
    + apply IH. by injection Hlen.
Qed.

End IndexPages.

Lemma pagination_page_count_and_paths_witness :
  let o := mkCreateOptions false "/blog/" false 3 in
  let posts := replicate 10 postA in
  let tableIds : gmap string (list string) := {[ "news" := ["b"] ]} in
  (0 < postsPerPage o)%Z ∧
  route_path <$> created (createIndexPage sampleResolve o posts [] "index.js"
                            (Some "/features/") emptyWorld).2 =
    ["/blog//features/"; "/blog//features/page/2"; "/blog//features/page/3";
     "/blog//features/page/4"] ∧
  route_path <$> created (createTaxonomyPages sampleResolve o
                            [sampleTag "news" (Some 4%Z)] tableIds "tag.js"
                            [postA; postB] emptyWorld).2 =
    ["/blog//news"; "/blog//newspage/2"] ∧
  (∃ rs, createIndexPage sampleResolve o posts [] "index.js" (Some "/features/")
           emptyWorld = (Ok tt, mkWorld [] [] rs) ∧ Z.of_nat (length rs) = 4%Z) ∧
  ∃ rs, createIndexPage sampleResolve o [] [] "index.js" None emptyWorld =
          (Ok tt, mkWorld [] [] rs) ∧ length rs = 1.
Proof.
  intros o posts tableIds.
  assert (Hpos : (0 < postsPerPage o)%Z) by (simpl; lia).
  split; [exact Hpos|]. split; [vm_compute; reflexivity|].
  split; [vm_compute; reflexivity|].
  destruct (pagination_page_count_and_paths sampleResolve o posts [] "index.js"
              (Some "/features/") [] tableIds "tag.js" [] emptyWorld Hpos)
    as [(rs & Hrun & (c & Hc & Hlen & _) & _) _].
  destruct (pagination_page_count_and_paths sampleResolve o [] [] "index.js"
              None [] tableIds "tag.js" [] emptyWorld Hpos)
    as [(rs0 & Hrun0 & _ & Hone) _].
  split.
  - exists rs. split; [exact Hrun|]. rewrite Hlen.
    change (Z.of_nat (length posts)) with 10%Z in Hc.
    change (postsPerPage o) with 3%Z in Hc. lia.
  - exists rs0. split; [exact Hrun0|]. by apply Hone.
Defined.


(** ** Stamping the heap *)

Lemma set_collectionPath_twice p q n :
  set_collectionPath p (set_collectionPath q n) = set_collectionPath p n.
Proof. done. Qed.

Lemma stampAll_lookup p ls h l :
  stampAll p ls h !! l =
  if decide (l ∈ ls) then set_collectionPath p <$> h !! l else h !! l.
Proof.
  unfold stampAll. revert h. induction ls as [|a ls IH]; intros h; cbn [foldl].
  - destruct (decide (l ∈ [])) as [Hin|_]; [by apply elem_of_nil in Hin|done].
  - rewrite IH. destruct (decide (l = a)) as [->|Hne].
    + rewrite list_lookup_alter_eq.
      destruct (decide (a ∈ a :: ls)) as [_|Hnin];
        [|exfalso; apply Hnin, list_elem_of_here].
      destruct (decide (a ∈ ls)); [|done].
      rewrite <- option_fmap_compose. by destruct (h !! a).
    + rewrite list_lookup_alter_ne by done.
      destruct (decide (l ∈ ls)) as [Hin|Hnin], (decide (l ∈ a :: ls)) as [Hin'|Hnin'];
        try done.
      * exfalso. apply Hnin'. by apply list_elem_of_further.
      * exfalso. apply elem_of_cons in Hin' as [?|?]; done.
Qed.


Lemma forEach_assign ls p w :
  forEach ls (λ l, assign l p) w =
  (Ok tt, mkWorld (stampAll (Some p) ls (heap w))
                  (writes w ++ ((λ l, (l, p)) <$> ls)) (created w)).
Proof.
  revert w. induction ls as [|a ls IH]; intros w.
  - destruct w. unfold forEach, ret. simpl. by rewrite app_nil_r.
  - rewrite forEach_cons. unfold bind, assign at 1. rewrite IH. simpl.
    by rewrite <- app_assoc.
Qed.

(** The run of [getCollection], step by step. *)
Lemma getCollection_steps ls p sel w :
  let coll := filter (λ l, holds sel (heap w) l) ls in
  let h1 := stampAll (Some p) coll (heap w) in
  let res := filter (λ l, holds (λ n, negb (sel n)) h1 l) ls in
  getCollection ls p sel w =
  (Ok (coll, res),
   mkWorld (stampAll (Some "/") res h1)
           (writes w ++ ((λ l, (l, p)) <$> coll) ++ ((λ l, (l, "/")) <$> res))
           (created w)).
Proof.
  intros coll h1 res. unfold getCollection, bind, filterEdges.
  rewrite forEach_assign. simpl. rewrite forEach_assign. simpl.
  unfold ret. by rewrite <- app_assoc.
Qed.

Lemma filter_ext_in {A} (P Q : A → Prop) `{∀ x, Decision (P x)} `{∀ x, Decision (Q x)}
    (l : list A) :
  (∀ x, x ∈ l → P x ↔ Q x) → filter P l = filter Q l.
Proof.
  induction l as [|a l IH]; intros Hext; [done|].
  rewrite !filter_cons.
  rewrite IH by (intros x Hx; apply Hext; by apply list_elem_of_further).
  destruct (decide (P a)) as [Hp|Hp], (decide (Q a)) as [Hq|Hq]; try done.
  - exfalso. apply Hq, (Hext a); [apply list_elem_of_here|done].
  - exfalso. apply Hp, (Hext a); [apply list_elem_of_here|done].
Qed.

Lemma stable_negb sel : stable sel → stable (λ n, negb (sel n)).
Proof. intros Hs p n. by rewrite Hs. Qed.

(** A stable selector does not see stamps. *)
Lemma holds_stamped sel h h' l p :
  stable sel →
  (h' !! l = h !! l ∨ h' !! l = set_collectionPath p <$> h !! l) →
  holds sel h' l = holds sel h l.
Proof.
  intros Hs [Heq|Heq]; unfold holds; rewrite Heq; [done|].
  destruct (h !! l); simpl; [apply Hs|done].
Qed.

Lemma holds_negb sel h l :
  l < length h → holds (λ n, negb (sel n)) h l = negb (holds sel h l).
Proof.
  intros Hl. unfold holds.
  destruct (lookup_lt_is_Some_2 h l Hl) as [n Hn]. by rewrite Hn.
Qed.

(** With a stable selector the second filter of [getCollection] sees what
    the first saw. *)
Lemma getCollection_run ls p sel w :
  stable sel →
  let h := heap w in
  let coll := filter (λ l, holds sel h l) ls in
  let res := filter (λ l, holds (λ n, negb (sel n)) h l) ls in
  getCollection ls p sel w =
  (Ok (coll, res),
   mkWorld (stampAll (Some "/") res (stampAll (Some p) coll h))
           (writes w ++ ((λ l, (l, p)) <$> coll) ++ ((λ l, (l, "/")) <$> res))
           (created w)).
Proof.
  intros Hs h coll res. rewrite getCollection_steps. cbv zeta.
  assert (Hres : filter (λ l, holds (λ n, negb (sel n))
                                (stampAll (Some p) coll h) l) ls = res).
  { apply list_filter_iff. intros l.
    rewrite (holds_stamped _ h _ l (Some p)); [done|by apply stable_negb|].
    rewrite stampAll_lookup. destruct (decide (l ∈ coll)); auto. }
  subst coll h. by rewrite Hres.
Qed.


Lemma set_unstamped p n : set_collectionPath p (unstamped n) = set_collectionPath p n.
Proof. done. Qed.

Lemma stable_unstamped sel n : stable sel → sel (unstamped n) = sel n.
Proof. intros Hs. apply Hs. Qed.

Lemma stampAll_unstamped p ls h : unstamped <$> stampAll p ls h = unstamped <$> h.
Proof.
  apply list_eq. intros l. rewrite !list_lookup_fmap, stampAll_lookup.
  destruct (decide (l ∈ ls)); [|done]. by destruct (h !! l).
Qed.

Lemma holds_unstamped sel h h' l :
  stable sel → unstamped <$> h = unstamped <$> h' → holds sel h l = holds sel h' l.
Proof.
  intros Hs Heq. apply (f_equal (λ x, x !! l)) in Heq.
  rewrite !list_lookup_fmap in Heq. unfold holds.
  destruct (h !! l) as [n|], (h' !! l) as [n'|];
    cbn [fmap option_fmap option_map] in Heq; try discriminate; [|done].
  assert (Hu : unstamped n = unstamped n') by congruence.
  by rewrite <- (stable_unstamped sel n Hs), <- (stable_unstamped sel n' Hs), Hu.
Qed.

Lemma deref_unstamped p h h' ls :
  unstamped <$> h = unstamped <$> h' →
  set_collectionPath p <$> deref h ls = set_collectionPath p <$> deref h' ls.
Proof.
  intros Heq. unfold deref. rewrite !list_fmap_omap.
  apply list_omap_ext, Forall_Forall2_diag, Forall_forall. intros l _.
  pose proof (f_equal (λ x, x !! l) Heq) as Hl. simpl in Hl.
  rewrite !list_lookup_fmap in Hl.
  destruct (h !! l) as [n|], (h' !! l) as [n'|];
    cbn [fmap option_fmap option_map] in *; try discriminate; [|done].
  assert (Hu : unstamped n = unstamped n') by congruence.
  by rewrite <- (set_unstamped p n), <- (set_unstamped p n'), Hu.
Qed.

Lemma carve_unstamped cs h h' ls :
  Forall (λ c, stable (selectorOf c)) cs →
  unstamped <$> h = unstamped <$> h' → carve cs h ls = carve cs h' ls.
Proof.
  intros Hst Heq. revert ls. induction Hst as [|c cs Hc Hcs IH]; intros ls; [done|].
  simpl.
  rewrite (list_filter_iff (λ l, holds (selectorOf c) h l)
             (λ l, holds (selectorOf c) h' l)) by
    (intros l; by rewrite (holds_unstamped _ h h')).
  rewrite (list_filter_iff (λ l, holds (λ n, negb (selectorOf c n)) h l)
             (λ l, holds (λ n, negb (selectorOf c n)) h' l)) by
    (intros l; rewrite (holds_unstamped _ h h'); [done|by apply stable_negb|done]).
  by rewrite IH.
Qed.

Lemma writeLog_unstamped cs h h' ls :
  Forall (λ c, stable (selectorOf c)) cs →
  unstamped <$> h = unstamped <$> h' → writeLog cs h ls = writeLog cs h' ls.
Proof.
  intros Hst Heq. revert ls. induction Hst as [|c cs Hc Hcs IH]; intros ls; [done|].
  simpl.
  rewrite (list_filter_iff (λ l, holds (selectorOf c) h l)
             (λ l, holds (selectorOf c) h' l)) by
    (intros l; by rewrite (holds_unstamped _ h h')).
  rewrite (list_filter_iff (λ l, holds (λ n, negb (selectorOf c n)) h l)
             (λ l, holds (λ n, negb (selectorOf c n)) h' l)) by
    (intros l; rewrite (holds_unstamped _ h h'); [done|by apply stable_negb|done]).
  by rewrite IH.
Qed.

Lemma assignedPath_stamped cs p n :
  Forall (λ c, stable (selectorOf c)) cs →
  assignedPath cs (set_collectionPath p n) = assignedPath cs n.
Proof.
  induction 1 as [|c cs Hc Hcs IH]; [done|]. simpl. by rewrite Hc, IH.
Qed.

Lemma emits_routesOf {A} (m : M A) a rs : emits m a rs → routesOf m = rs.
Proof. intros Hm. unfold routesOf. by rewrite (Hm emptyWorld). Qed.

Section Collections.
Variable resolveUrl : string → option string → option string → option string → string.
Variable infiniteScroll : bool → list Node → IScroll.

Lemma createCollection_emits o posts tpl tags cp :
  emits (createCollection resolveUrl infiniteScroll o posts tpl tags cp) tt
    (routesOf (createCollection resolveUrl infiniteScroll o posts tpl tags cp)).
Proof.
  destruct (createPostPages_emits resolveUrl o posts tags (t_post tpl) "")
    as (paths & _ & _ & Hposts).
  pose proof (createIndexPage_emits resolveUrl o posts
                (indexIds (infiniteScroll (iScrollEnabled o) posts))
                (t_index tpl) cp) as Hindex.
  pose proof (emits_bind _ (λ _, createIndexPage resolveUrl o posts
                (indexIds (infiniteScroll (iScrollEnabled o) posts))
                (t_index tpl) cp) tt tt _ _ Hposts Hindex) as Hall.
  unfold createCollection.
  by rewrite (emits_routesOf _ _ _ Hall).
Qed.

End Collections.

Lemma holds_negb_true sel h l :
  holds (λ n, negb (sel n)) h l = true → holds sel h l = false.
Proof. unfold holds. destruct (h !! l); [|done]. by intros ->%negb_true_iff. Qed.

Lemma holds_cases sel h l n :
  h !! l = Some n →
  holds sel h l = sel n ∧ holds (λ n, negb (sel n)) h l = negb (sel n).
Proof. intros Hn. unfold holds. by rewrite Hn. Qed.

Section CollectionLoop.
Variable resolveUrl : string → option string → option string → option string → string.
Variable infiniteScroll : bool → list Node → IScroll.

Lemma deref_collection p sel h ls :
  let coll := filter (λ l, holds sel h l) ls in
  let res := filter (λ l, holds (λ n, negb (sel n)) h l) ls in
  deref (stampAll (Some "/") res (stampAll (Some p) coll h)) coll =
  set_collectionPath (Some p) <$> deref h coll.
Proof.
  intros coll res. unfold deref. rewrite list_fmap_omap.
  apply list_omap_ext, Forall_Forall2_diag, Forall_forall. intros l Hl.
  rewrite !stampAll_lookup.
  destruct (decide (l ∈ res)) as [Hres|_].
  - exfalso. apply list_elem_of_filter in Hl as [Hl _].
    apply list_elem_of_filter in Hres as [Hres _].
    apply Is_true_true in Hl, Hres. apply holds_negb_true in Hres. congruence.
  - by rewrite decide_True.
Qed.

Lemma stampNode_step c cs ls h l :
  Forall (λ c, stable (selectorOf c)) cs →
  let coll := filter (λ l, holds (selectorOf c) h l) ls in
  let res := filter (λ l, holds (λ n, negb (selectorOf c n)) h l) ls in
  stampNode cs res l <$>
    stampAll (Some "/") res (stampAll (Some (path c)) coll h) !! l =
  stampNode (c :: cs) ls l <$> h !! l.
Proof.
  intros Hst coll res. rewrite !stampAll_lookup.
  destruct (h !! l) as [n|] eqn:Hn;
    [|by destruct (decide (l ∈ res)), (decide (l ∈ coll))].
  destruct (holds_cases (selectorOf c) h l n Hn) as [Hsel Hneg].
  assert (Hcoll : l ∈ coll ↔ l ∈ ls ∧ selectorOf c n = true).
  { unfold coll. rewrite list_elem_of_filter, Hsel, Is_true_true. tauto. }
  assert (Hres : l ∈ res ↔ l ∈ ls ∧ selectorOf c n = false).
  { unfold res. rewrite list_elem_of_filter, Hneg, Is_true_true, negb_true_iff. tauto. }
  unfold stampNode. cbn [assignedPath].
  destruct (decide (l ∈ res)) as [Hr|Hr], (decide (l ∈ coll)) as [Hc|Hc],
    (decide (l ∈ ls)) as [Hl|Hl]; try (exfalso; tauto);
    cbn [fmap option_fmap option_map]; f_equal.
  - exfalso. apply Hres in Hr as [_ Hr]. apply Hcoll in Hc as [_ Hc]. congruence.
  - apply Hres in Hr as Hr'. destruct Hr' as [_ ->].
    destruct cs as [|c' cs']; [done|].
    by rewrite assignedPath_stamped, set_collectionPath_twice.
  - apply Hcoll in Hc as Hc'. destruct Hc' as [_ ->]. by destruct cs.
  - exfalso. destruct (selectorOf c n) eqn:E; tauto.
  - by destruct cs.
Qed.

Lemma forEachCollection_run o tpl tags cs :
  Forall (λ c, stable (selectorOf c)) cs →
  ∀ ls w,
    ∃ w',
      forEachCollection resolveUrl infiniteScroll o tpl tags cs ls w =
        (Ok (carve cs (heap w) ls).2, w') ∧
      created w' = created w ++
        concat (zip_with (collectionRoutes resolveUrl infiniteScroll o tpl tags (heap w)) cs
                  (carve cs (heap w) ls).1) ∧
      (∀ l, heap w' !! l = stampNode cs ls l <$> heap w !! l) ∧
      writes w' = writes w ++ writeLog cs (heap w) ls.
Proof.
  induction 1 as [|c cs Hc Hcs IH]; intros ls w.
  - exists w. simpl. unfold ret. rewrite !app_nil_r. split_and!; try done.
    intros l. by destruct (heap w !! l).
  - cbn [forEachCollection]. unfold bind at 1.
    rewrite (getCollection_run ls (path c) (selectorOf c) w Hc). cbv zeta.
    set (h := heap w).
    set (coll := filter (λ l, holds (selectorOf c) h l) ls).
    set (res := filter (λ l, holds (λ n, negb (selectorOf c n)) h l) ls).
    set (h2 := stampAll (Some "/") res (stampAll (Some (path c)) coll h)).
    assert (Hun : unstamped <$> h2 = unstamped <$> h).
    { unfold h2. by rewrite !stampAll_unstamped. }
    unfold bind at 1, nodesOf at 1. cbn [fst snd heap].
    unfold bind at 1.
    rewrite (createCollection_emits resolveUrl infiniteScroll o (deref h2 coll)
               tpl tags (Some (path c))).
    cbn [heap writes created].
    match goal with
    | |- context [forEachCollection _ _ _ _ _ cs res ?w2] =>
        destruct (IH res w2) as (w' & Hrun & Hcr & Hheap & Hwr)
    end.
    cbn [heap writes created] in *.
    exists w'. rewrite Hrun. cbn [carve fst snd]. fold h coll res.
    rewrite (carve_unstamped cs h2 h res Hcs Hun) in *.
    split_and!.
    + done.
    + rewrite Hcr. cbn [zip_with concat]. rewrite <- !app_assoc. f_equal. f_equal.
      * unfold collectionRoutes, h2, coll, res. by rewrite deref_collection.
      * f_equal. apply zip_with_ext; [|done|done].
        intros c' g. unfold collectionRoutes.
        by rewrite (deref_unstamped _ h2 h g Hun).
    + intros l. rewrite Hheap. unfold h2, coll, res. by apply stampNode_step.
    + rewrite Hwr. cbn [writeLog]. fold h coll res.
      rewrite (writeLog_unstamped cs h2 h res Hcs Hun).
      by rewrite <- !app_assoc.
Qed.

End CollectionLoop.

(** ** First match *)

Lemma firstMatch_here c cs n c' :
  firstMatch (c :: cs) n 0 c' ↔ c' = c ∧ selectorOf c n = true.
Proof.
  unfold firstMatch. simpl. split.
  - intros ([= ->] & Hsel & _). done.
  - intros [-> Hsel]. split_and!; [done|done|]. intros j c'' Hj. lia.
Qed.

Lemma firstMatch_later c cs n k c' :
  firstMatch (c :: cs) n (S k) c' ↔ selectorOf c n = false ∧ firstMatch cs n k c'.
Proof.
  unfold firstMatch. simpl. split.
  - intros (Hk & Hsel & Hbefore). split_and!; try done.
    + apply (Hbefore 0 c); [lia|done].
    + intros j c'' Hj Hc''. apply (Hbefore (S j) c''); [lia|done].
  - intros (Hc & Hk & Hsel & Hbefore). split_and!; try done.
    intros [|j] c'' Hj Hc''; simpl in Hc''; [by injection Hc'' as <-|].
    apply (Hbefore j c''); [lia|done].
Qed.

Lemma noMatch_cons c cs n :
  noMatch (c :: cs) n ↔ selectorOf c n = false ∧ noMatch cs n.
Proof.
  unfold noMatch. split.
  - intros H. split; [apply H, list_elem_of_here|].
    intros c' Hc'. by apply H, list_elem_of_further.
  - intros [Hc Hcs] c' [->|Hc']%elem_of_cons; auto.
Qed.

Lemma assignedPath_firstMatch cs n k c :
  firstMatch cs n k c → assignedPath cs n = path c.
Proof.
  revert k. induction cs as [|c0 cs IH]; intros k.
  - by intros [? _].
  - destruct k as [|k].
    + intros [-> Hsel]%firstMatch_here. simpl. by rewrite Hsel.
    + intros [Hsel Hk]%firstMatch_later. simpl. rewrite Hsel. by eapply IH.
Qed.

Lemma assignedPath_noMatch cs n : noMatch cs n → assignedPath cs n = "/".
Proof.
  induction cs as [|c cs IH]; [done|].
  intros [Hsel Hcs]%noMatch_cons. simpl. rewrite Hsel. by apply IH.
Qed.

(** A node is taken by exactly one collection or by none. *)
Lemma firstMatch_or_noMatch cs n :
  (∃ k c, firstMatch cs n k c) ∨ noMatch cs n.
Proof.
  induction cs as [|c cs IH].
  - right. by intros c ?%elem_of_nil.
  - destruct (selectorOf c n) eqn:Hsel.
    + left. exists 0, c. by apply firstMatch_here.
    + destruct IH as [(k & c' & Hk)|Hno].
      * left. exists (S k), c'. by apply firstMatch_later.
      * right. by apply noMatch_cons.
Qed.

Lemma firstMatch_unique cs n k c k' c' :
  firstMatch cs n k c → firstMatch cs n k' c' → k = k' ∧ c = c'.
Proof.
  intros (Hk & Hsel & Hbefore) (Hk' & Hsel' & Hbefore').
  destruct (Nat.lt_trichotomy k k') as [Hlt|[->|Hlt]].
  - specialize (Hbefore' k c Hlt Hk). congruence.
  - split; [done|congruence].
  - specialize (Hbefore k' c' Hlt Hk'). congruence.
Qed.

Lemma firstMatch_not_noMatch cs n k c : firstMatch cs n k c → ¬ noMatch cs n.
Proof.
  intros (Hk & Hsel & _) Hno.
  rewrite (Hno c) in Hsel; [done|]. by eapply list_elem_of_lookup_2.
Qed.

(** ** The partition computed by the loop *)

Lemma carve_length cs h ls : length (carve cs h ls).1 = length cs.
Proof.
  revert ls. induction cs as [|c cs IH]; intros ls; [done|]. simpl. by rewrite IH.
Qed.

Lemma elem_of_collection sel h (ls : list nat) l :
  l ∈ filter (λ l, holds sel h l) ls ↔ l ∈ ls ∧ ∃ n, h !! l = Some n ∧ sel n = true.
Proof.
  rewrite list_elem_of_filter, Is_true_true. unfold holds.
  destruct (h !! l) as [n|]; split.
  - intros [Hs Hl]. split; [done|]. by exists n.
  - intros [Hl (n' & [= <-] & Hs)]. done.
  - by intros [? _].
  - by intros [_ (n' & ? & _)].
Qed.

Lemma elem_of_residual sel h (ls : list nat) l :
  l ∈ filter (λ l, holds (λ n, negb (sel n)) h l) ls ↔
  l ∈ ls ∧ ∃ n, h !! l = Some n ∧ sel n = false.
Proof.
  rewrite elem_of_collection. split; intros [Hl (n & Hn & Hs)]; (split; [done|]);
    exists n; (split; [done|]).
  - by apply negb_true_iff.
  - by apply negb_true_iff.
Qed.

Lemma carve_group_elem cs h ls k g l :
  (carve cs h ls).1 !! k = Some g →
  l ∈ g ↔ l ∈ ls ∧ ∃ n c, h !! l = Some n ∧ firstMatch cs n k c.
Proof.
  revert ls k. induction cs as [|c cs IH]; intros ls k Hg; [done|].
  simpl in Hg. destruct k as [|k]; simpl in Hg.
  - injection Hg as <-. rewrite elem_of_collection. split.
    + intros [Hl (n & Hn & Hs)]. split; [done|]. exists n, c.
      split; [done|]. by apply firstMatch_here.
    + intros [Hl (n & c' & Hn & [-> Hs]%firstMatch_here)]. split; [done|]. by exists n.
  - rewrite (IH _ _ Hg), elem_of_residual. split.
    + intros [[Hl (n & Hn & Hs)] (n' & c' & Hn' & Hk)]. split; [done|].
      exists n, c'. split; [done|]. apply firstMatch_later.
      split; [done|]. rewrite Hn in Hn'. by injection Hn' as <-.
    + intros [Hl (n & c' & Hn & [Hs Hk]%firstMatch_later)]. split.
      * split; [done|]. by exists n.
      * by exists n, c'.
Qed.

Lemma carve_residual_elem cs h ls l :
  l ∈ (carve cs h ls).2 ↔
  l ∈ ls ∧ (cs = [] ∨ ∃ n, h !! l = Some n ∧ noMatch cs n).
Proof.
  revert ls. induction cs as [|c cs IH]; intros ls; simpl.
  - split; [intros Hl; split; [done|by left]|by intros [Hl _]].
  - rewrite IH, elem_of_residual. split.
    + intros [[Hl (n & Hn & Hs)] Hrest]. split; [done|]. right.
      exists n. split; [done|]. apply noMatch_cons. split; [done|].
      destruct Hrest as [->|(n' & Hn' & Hno)].
      * by intros c' ?%elem_of_nil.
      * rewrite Hn in Hn'. by injection Hn' as <-.
    + intros [Hl [?|(n & Hn & [Hs Hno]%noMatch_cons)]]; [done|]. split.
      * split; [done|]. by exists n.
      * right. by exists n.
Qed.

Lemma carve_perm cs h ls :
  (∀ l, l ∈ ls → l < length h) →
  concat (carve cs h ls).1 ++ (carve cs h ls).2 ≡ₚ ls.
Proof.
  revert ls. induction cs as [|c cs IH]; intros ls Hvalid; [done|].
  simpl. rewrite <- app_assoc. rewrite IH.
  - rewrite (filter_ext_in (λ l, holds (λ n, negb (selectorOf c n)) h l)
               (λ l, ¬ holds (selectorOf c) h l) ls).
    + apply filter_app_complement.
    + intros l Hl. rewrite holds_negb by auto.
      destruct (holds (selectorOf c) h l); simpl; naive_solver.
  - intros l [_ Hl]%list_elem_of_filter. auto.
Qed.

(** Every group keeps the order of the posts. *)
Lemma carve_sublist cs h ls :
  Forall (λ g, g `sublist_of` ls) (carve cs h ls).1 ∧ (carve cs h ls).2 `sublist_of` ls.
Proof.
  revert ls. induction cs as [|c cs IH]; intros ls; simpl; [by split|].
  destruct (IH (filter (λ l, holds (λ n, negb (selectorOf c n)) h l) ls)) as [Hgs Hr].
  split.
  - constructor; [apply sublist_filter|].
    eapply Forall_impl; [exact Hgs|]. intros g Hg. simpl in Hg.
    etrans; [exact Hg|apply sublist_filter].
  - etrans; [exact Hr|apply sublist_filter].
Qed.

(** ** The whole run *)

Section WholeRun.
Variable resolveUrl : string → option string → option string → option string → string.
Variable infiniteScroll : bool → list Node → IScroll.

Lemma createOrdinaryPages_emits o pages tpl :
  emits (createOrdinaryPages resolveUrl o pages tpl) tt
    (routesOf (createOrdinaryPages resolveUrl o pages tpl)).
Proof.
  assert (H : emits (createOrdinaryPages resolveUrl o pages tpl) tt
    (concat ((λ node, [mkRoute
        (resolveUrl (basePath o) (Some "/") (Some (slug node)) (url node))
        tpl (PageCtx (slug node))]) <$> pages))).
  { unfold createOrdinaryPages. apply emits_forEach. intros node _.
    apply emits_createPage. }
  by rewrite (emits_routesOf _ _ _ H).
Qed.

(** The taxonomy pages only read the nodes. *)
Lemma createTaxonomies_run o tpl result posts h :
  ∃ r rs,
    (r = Ok tt ∨ r = Throw TypeError) ∧
    ∀ w, heap w = h →
      createTaxonomies resolveUrl infiniteScroll o tpl result posts w =
        (r, mkWorld h (writes w) (created w ++ rs)).
Proof.
  set (allPosts := deref h posts).
  set (ids := infiniteScroll (iScrollEnabled o) allPosts).
  destruct (createTaxonomyPages_run resolveUrl o
              (filter (λ n, hasPosts n) (allGhostTag result)) (tagIds ids)
              (t_tag tpl) allPosts) as (r1 & rs1 & Hr1 & Hrun1).
  destruct (createTaxonomyPages_run resolveUrl o
              (filter (λ n, hasPosts n) (allGhostAuthor result)) (authorIds ids)
              (t_author tpl) allPosts) as (r2 & rs2 & Hr2 & Hrun2).
  destruct Hr1 as [->| ->].
  - exists r2, (rs1 ++ rs2). split; [done|]. intros w <-.
    unfold createTaxonomies, bind at 1, nodesOf. cbv zeta. unfold bind.
    fold allPosts ids. rewrite Hrun1, Hrun2. cbn [heap writes created].
    by rewrite app_assoc.
  - exists (Throw TypeError), rs1. split; [by right|]. intros w <-.
    unfold createTaxonomies, bind at 1, nodesOf. cbv zeta. unfold bind.
    fold allPosts ids. by rewrite Hrun1.
Qed.

Lemma createPages_run t tpl res w :
  errors res = None →
  Forall (λ c, stable (selectorOf c)) (collectionsOf t) →
  let h := allGhostPost res in
  let cs := collectionsOf t in
  let ls := seq 0 (length h) in
  let o := createOptionsOf t res in
  ∃ h' r taxR,
    (∀ l, h' !! l = stampNode cs ls l <$> h !! l) ∧
    (r = Ok tt ∨ r = Throw TypeError) ∧
    (∀ w0, heap w0 = h' →
       createTaxonomies resolveUrl infiniteScroll o tpl res ls w0 =
         (r, mkWorld h' (writes w0) (created w0 ++ taxR))) ∧
    createPages resolveUrl infiniteScroll t tpl res w =
      (r, mkWorld h' (writes w ++ writeLog cs h ls)
            (created w ++
             routesOf (createOrdinaryPages resolveUrl o (allGhostPage res) (t_page tpl)) ++
             concat (zip_with (collectionRoutes resolveUrl infiniteScroll o tpl
                                 (allGhostTag res) h) cs (carve cs h ls).1) ++
             routesOf (createCollection resolveUrl infiniteScroll o
                         (deref h' (carve cs h ls).2) tpl (allGhostTag res) None) ++
             taxR)).
Proof.
  intros Herr Hst h cs ls o. unfold createPages. rewrite Herr. cbv zeta.
  fold o cs. unfold bind at 1, materialize. cbn [fst snd]. fold h ls.
  unfold bind at 1. rewrite (createOrdinaryPages_emits o (allGhostPage res) (t_page tpl)).
  cbn [heap writes created].
  unfold bind at 1.
  match goal with
  | |- context [forEachCollection _ _ _ _ _ cs ls ?w2] =>
      destruct (forEachCollection_run resolveUrl infiniteScroll o tpl
                  (allGhostTag res) cs Hst ls w2) as (w3 & Hrun & Hcr & Hheap & Hwr)
  end.
  cbn [heap writes created] in *. rewrite Hrun.
  unfold bind at 1, nodesOf at 1. cbn [fst snd].
  unfold bind at 1.
  rewrite (createCollection_emits resolveUrl infiniteScroll o
             (deref (heap w3) (carve cs h ls).2) tpl (allGhostTag res) None).
  cbn [heap writes created].
  destruct (createTaxonomies_run o tpl res ls (heap w3)) as (r & taxR & Hr & Htax).
  rewrite Htax by done. cbn [heap writes created].
  exists (heap w3), r, taxR. split; [exact Hheap|]. split; [exact Hr|].
  split; [exact Htax|].
  rewrite Hcr, Hwr. by rewrite <- !app_assoc.
Qed.

End WholeRun.

(** ** What the loop leaves on the nodes *)

Lemma zip_with_ext_lookup {A B C} (f f' : A → B → C) (xs : list A) (ys : list B) :
  (∀ k x y, xs !! k = Some x → ys !! k = Some y → f x y = f' x y) →
  zip_with f xs ys = zip_with f' xs ys.
Proof.
  revert ys. induction xs as [|x xs IH]; intros [|y ys] Hext; try done.
  simpl. f_equal.
  - by apply (Hext 0).
  - apply IH. intros k x' y' Hx Hy. by apply (Hext (S k)).
Qed.

Lemma stamped_group cs (h h' : list Node) ls k c g l :
  (∀ l, h' !! l = stampNode cs ls l <$> h !! l) →
  cs !! k = Some c → (carve cs h ls).1 !! k = Some g → l ∈ g →
  ∃ n, h !! l = Some n ∧ firstMatch cs n k c ∧
       h' !! l = Some (set_collectionPath (Some (path c)) n).
Proof.
  intros Hheap Hc Hg Hl.
  apply (carve_group_elem cs h ls k g l Hg) in Hl as (Hls & n & c' & Hn & Hfm).
  assert (c' = c) as -> by (destruct Hfm as [Hk _]; congruence).
  exists n. split; [done|]. split; [done|].
  rewrite Hheap, Hn. cbn [fmap option_fmap option_map]. f_equal.
  unfold stampNode. destruct cs as [|c0 cs0]; [done|].
  rewrite decide_True by done. by rewrite (assignedPath_firstMatch _ _ _ _ Hfm).
Qed.

Lemma stamped_residual cs (h h' : list Node) ls l :
  (∀ l, h' !! l = stampNode cs ls l <$> h !! l) →
  cs ≠ [] → l ∈ (carve cs h ls).2 →
  ∃ n, h !! l = Some n ∧ noMatch cs n ∧
       h' !! l = Some (set_collectionPath (Some "/") n).
Proof.
  intros Hheap Hne Hl.
  apply carve_residual_elem in Hl as [Hls [?|(n & Hn & Hno)]]; [done|].
  exists n. split; [done|]. split; [done|].
  rewrite Hheap, Hn. cbn [fmap option_fmap option_map]. f_equal.
  unfold stampNode. destruct cs as [|c0 cs0]; [done|].
  rewrite decide_True by done. by rewrite (assignedPath_noMatch _ _ Hno).
Qed.

Lemma deref_stamped_group cs (h h' : list Node) ls k c g :
  (∀ l, h' !! l = stampNode cs ls l <$> h !! l) →
  cs !! k = Some c → (carve cs h ls).1 !! k = Some g →
  deref h' g = set_collectionPath (Some (path c)) <$> deref h g.
Proof.
  intros Hheap Hc Hg. unfold deref. rewrite list_fmap_omap.
  apply list_omap_ext, Forall_Forall2_diag, Forall_forall. intros l Hl.
  destruct (stamped_group cs h h' ls k c g l Hheap Hc Hg Hl) as (n & Hn & _ & Hn').
  by rewrite Hn, Hn'.
Qed.

Lemma stampNode_length cs (h h' : list Node) ls :
  (∀ l, h' !! l = stampNode cs ls l <$> h !! l) → length h' = length h.
Proof.
  intros Hheap.
  assert (Heq : h' = imap (stampNode cs ls) h).
  { apply list_eq. intros l. by rewrite Hheap, list_lookup_imap. }
  by rewrite Heq, length_imap.
Qed.

Lemma stampNode_unstamped cs (h h' : list Node) ls :
  (∀ l, h' !! l = stampNode cs ls l <$> h !! l) →
  unstamped <$> h' = unstamped <$> h.
Proof.
  intros Hheap. apply list_eq. intros l.
  rewrite !list_lookup_fmap, Hheap. destruct (h !! l) as [n|]; [|done].
  cbn [fmap option_fmap option_map]. f_equal.
  unfold stampNode. destruct cs; [done|]. by destruct (decide (l ∈ ls)).
Qed.

Lemma seq_valid (h : list Node) l : l ∈ seq 0 (length h) → l < length h.
Proof. intros Hl%elem_of_seq. lia. Qed.

Lemma seq_lookup_node (h : list Node) l n : h !! l = Some n → l ∈ seq 0 (length h).
Proof. intros Hl%lookup_lt_Some. apply elem_of_seq. lia. Qed.

Section PartitionClaims.
Variable resolveUrl : string → option string → option string → option string → string.
Variable infiniteScroll : bool → list Node → IScroll.

(** The run of [createPages], with the routes of every collection read off
    the nodes as the run leaves them. *)
Lemma createPages_plan t tpl res w :
  errors res = None →
  Forall (λ c, stable (selectorOf c)) (collectionsOf t) →
  let h := allGhostPost res in
  let cs := collectionsOf t in
  let ls := seq 0 (length h) in
  let o := createOptionsOf t res in
  ∃ h' r taxR,
    (∀ l, h' !! l = stampNode cs ls l <$> h !! l) ∧
    (r = Ok tt ∨ r = Throw TypeError) ∧
    createPages resolveUrl infiniteScroll t tpl res w =
      (r, mkWorld h' (writes w ++ writeLog cs h ls)
            (created w ++
             routesOf (createOrdinaryPages resolveUrl o (allGhostPage res) (t_page tpl)) ++
             concat (zip_with
                       (λ c g, routesOf (createCollection resolveUrl infiniteScroll o
                                           (deref h' g) tpl (allGhostTag res)
                                           (Some (path c))))
                       cs (carve cs h ls).1) ++
             routesOf (createCollection resolveUrl infiniteScroll o
                         (deref h' (carve cs h ls).2) tpl (allGhostTag res) None) ++
             taxR)).
Proof.
  intros Herr Hst h cs ls o.
  destruct (createPages_run resolveUrl infiniteScroll t tpl res w Herr Hst)
    as (h' & r & taxR & Hheap & Hr & _ & Hrun).
  exists h', r, taxR. split; [exact Hheap|]. split; [exact Hr|].
  subst h cs ls o. rewrite Hrun.
  erewrite zip_with_ext_lookup; [reflexivity|].
  intros k c g Hc Hg. unfold collectionRoutes. cbv beta.
  by rewrite (deref_stamped_group _ _ _ _ _ _ _ Hheap Hc Hg).
Qed.

(** C1 (as the code has it): with selectors that do not read
    [collectionPath], the run splits the posts into one group per configured
    collection and a rest; the routes created are those of the groups, in the
    order of the configuration, followed by those of the rest as default
    collection; the groups with the rest are a partition of the posts, each
    post in exactly one of them, in the order of the input.  A post is in
    the group of a collection exactly when that collection is the first
    whose selector accepts it, and it then carries the path of that
    collection; it is in the rest exactly when no selector accepts it, and
    it then carries [/] when at least one collection is configured.  With no
    configured collection the rest is the whole post list and nothing is
    written on any post. *)
Theorem partition_complete_exclusive t tpl res w :
  errors res = None →
  Forall (λ c, stable (selectorOf c)) (collectionsOf t) →
  let h := allGhostPost res in
  let cs := collectionsOf t in
  let o := createOptionsOf t res in
  let out := createPages resolveUrl infiniteScroll t tpl res w in
  ∃ gs r taxR,
    length gs = length cs ∧
    created out.2 =
      created w ++
      routesOf (createOrdinaryPages resolveUrl o (allGhostPage res) (t_page tpl)) ++
      concat (zip_with
                (λ c g, routesOf (createCollection resolveUrl infiniteScroll o
                                    (deref (heap out.2) g) tpl (allGhostTag res)
                                    (Some (path c))))
                cs gs) ++
      routesOf (createCollection resolveUrl infiniteScroll o
                  (deref (heap out.2) r) tpl (allGhostTag res) None) ++
      taxR ∧
    (∀ k c g l n, cs !! k = Some c → gs !! k = Some g → h !! l = Some n →
       (l ∈ g ↔ firstMatch cs n k c)) ∧
    (∀ l n, h !! l = Some n → (l ∈ r ↔ noMatch cs n)) ∧
    (∀ k c g l, cs !! k = Some c → gs !! k = Some g → l ∈ g →
       collectionPath <$> heap out.2 !! l = Some (Some (path c))) ∧
    (cs ≠ [] → ∀ l, l ∈ r → collectionPath <$> heap out.2 !! l = Some (Some "/")) ∧
    (cs = [] → r = seq 0 (length h) ∧ heap out.2 = h ∧ writes out.2 = writes w) ∧
    length (heap out.2) = length h ∧
    concat gs ++ r ≡ₚ seq 0 (length h) ∧
    NoDup (concat gs ++ r) ∧
    Forall (λ g, g `sublist_of` seq 0 (length h)) gs ∧
    r `sublist_of` seq 0 (length h).
Proof.
  intros Herr Hst h cs o out.
  destruct (createPages_plan t tpl res w Herr Hst) as (h' & r & taxR & Hheap & Hr & Hrun).
  fold h cs o in Hheap, Hrun. subst out. rewrite Hrun. cbn [snd heap created writes].
  pose proof (carve_perm cs h (seq 0 (length h)) (seq_valid h)) as Hperm.
  exists (carve cs h (seq 0 (length h))).1, (carve cs h (seq 0 (length h))).2, taxR.
  split_and!.
  - apply carve_length.
  - done.
  - intros k c g l n Hc Hg Hn.
    rewrite (carve_group_elem cs h (seq 0 (length h)) k g l Hg). split.
    + intros (_ & n' & c' & Hn' & Hfm).
      assert (n' = n) as -> by congruence.
      assert (c' = c) as -> by (destruct Hfm as [Hk _]; congruence).
      done.
    + intros Hfm. split; [by eapply seq_lookup_node|]. by exists n, c.
  - intros l n Hn. rewrite carve_residual_elem. split.
    + intros [_ [Hnil|(n' & Hn' & Hno)]].
      * rewrite Hnil. by intros c ?%elem_of_nil.
      * by assert (n' = n) as -> by congruence.
    + intros Hno. split; [by eapply seq_lookup_node|]. right. by exists n.
  - intros k c g l Hc Hg Hl.
    destruct (stamped_group _ _ _ _ _ _ _ _ Hheap Hc Hg Hl) as (n & _ & _ & ->). done.
  - intros Hne l Hl.
    destruct (stamped_residual _ _ _ _ _ Hheap Hne Hl) as (n & _ & _ & ->). done.
  - intros Hnil. rewrite Hnil in *. cbn [carve snd writeLog]. split_and!.
    + done.
    + apply list_eq. intros l. rewrite Hheap. by destruct (h !! l).
    + by rewrite app_nil_r.
  - by eapply stampNode_length.
  - exact Hperm.
  - rewrite Hperm. apply NoDup_seq.
  - apply carve_sublist.
  - apply carve_sublist.
Qed.

End PartitionClaims.


Lemma partition_complete_exclusive_witness :
  let out := createPages sampleResolve sampleScroll newsTheme sampleTemplates
               sampleResult emptyWorld in
  errors sampleResult = None ∧
  out.1 = Ok tt ∧
  collectionPath <$> heap out.2 = [Some "/"; Some "/news/"; Some "/"] ∧
  ∃ g r, 1 ∈ g ∧ (0 ∉ g) ∧ 0 ∈ r ∧ (1 ∉ r) ∧
         concat [g] ++ r ≡ₚ [0; 1; 2] ∧ NoDup (concat [g] ++ r).
Proof.
  intros out.
  assert (Herr : errors sampleResult = None) by reflexivity.
  assert (Hst : Forall (λ c, stable (selectorOf c)) (collectionsOf newsTheme)).
  { repeat constructor. }
  split; [exact Herr|].
  split; [vm_compute; reflexivity|]. split; [vm_compute; reflexivity|].
  destruct (partition_complete_exclusive sampleResolve sampleScroll newsTheme
              sampleTemplates sampleResult emptyWorld Herr Hst)
    as (gs & r & _ & Hlen & _ & Hgroup & Hrest & _ & _ & _ & _ & Hperm & Hnd & _).
  destruct gs as [|g [|g' gs]]; [discriminate| |discriminate].
  set (news := mkCollection "/news/" (Some (hasTag "news"))).
  assert (Hnews : firstMatch (collectionsOf newsTheme) postB 0 news).
  { split; [reflexivity|]. split; [vm_compute; reflexivity|]. intros j c' Hj. lia. }
  assert (Hplain : noMatch (collectionsOf newsTheme) postA).
  { intros c Hc. apply elem_of_cons in Hc as [->|Hc]; [vm_compute; reflexivity|].
    by apply elem_of_nil in Hc. }
  exists g, r. split_and!.
  - by apply (Hgroup 0 news g 1 postB).
  - intros Hin. apply (Hgroup 0 news g 0 postA eq_refl eq_refl eq_refl) in Hin.
    destruct Hin as (_ & Hacc & _). vm_compute in Hacc. discriminate.
  - by apply (Hrest 0 postA).
  - intros Hin. apply (Hrest 1 postB eq_refl) in Hin.
    specialize (Hin news (list_elem_of_here _ _)). vm_compute in Hin. discriminate.
  - exact Hperm.
  - exact Hnd.
Defined.

(** Without a configured collection no post is ever given a
    [collectionPath], and the table handed to the post routes maps every id
    to [undefined].  With a selector that reads [collectionPath] the posts
    a collection takes are in the rest as well: every post has its route
    twice, once in the collection and once in the default collection. *)
Lemma partition_unassigned_without_collections :
  let out := createPages sampleResolve sampleScroll plainTheme sampleTemplates
               sampleResult emptyWorld in
  let twice := createPages sampleResolve sampleScroll stampReadingTheme
                 sampleTemplates sampleResult emptyWorld in
  (collectionsOf plainTheme = [] ∧
   out.1 = Ok tt ∧
   collectionPath <$> heap out.2 = [None; None; None] ∧
   writes out.2 = [] ∧
   ¬ (∀ l n, heap out.2 !! l = Some n → ∃ p, collectionPath n = Some p)) ∧
  (getCollection [0; 1; 2] "/fresh/" unstampedOnly
     (mkWorld (allGhostPost sampleResult) [] [])).1 = Ok ([0; 1; 2], [0; 1; 2]) ∧
  twice.1 = Ok tt ∧
  route_path <$> created twice.2 =
    ["/blog//post-a"; "/blog//post-b"; "/blog//post-c"; "/blog//fresh/";
     "/blog//post-a"; "/blog//post-b"; "/blog//post-c"; "/blog//";
     "/blog//news"].
Proof.
  intros out twice. split; [|by vm_compute].
  split; [reflexivity|].
  assert (Hcp : collectionPath <$> heap out.2 = [None; None; None])
    by (vm_compute; reflexivity).
  split; [vm_compute; reflexivity|]. split; [exact Hcp|].
  split; [vm_compute; reflexivity|].
  intros Hall.
  destruct (heap out.2) as [|n0 hs] eqn:Hh; [discriminate|].
  destruct (Hall 0 n0 eq_refl) as [p Hp].
  simpl in Hcp. congruence.
Qed.

(** ** The log of assignments *)

Lemma writesTo_app l xs ys : writesTo l (xs ++ ys) = writesTo l xs ++ writesTo l ys.
Proof. unfold writesTo. by rewrite filter_app, fmap_app. Qed.

Lemma writesTo_stamp l p (g : list nat) :
  NoDup g →
  writesTo l ((λ l', (l', p)) <$> g) = if decide (l ∈ g) then [p] else [].
Proof.
  unfold writesTo. induction 1 as [|a g Ha Hg IH].
  - by destruct (decide (l ∈ [])) as [?%elem_of_nil|].
  - rewrite fmap_cons, filter_cons. cbn [fst].
    destruct (decide (a = l)) as [->|Hne].
    + rewrite fmap_cons, IH. cbn [snd].
      destruct (decide (l ∈ g)) as [|_]; [done|].
      destruct (decide (l ∈ l :: g)) as [_|Hn]; [done|].
      exfalso. apply Hn, list_elem_of_here.
    + rewrite IH.
      destruct (decide (l ∈ g)) as [Hin|Hnin], (decide (l ∈ a :: g)) as [Hin'|Hnin'];
        try done.
      * exfalso. apply Hnin'. by apply list_elem_of_further.
      * exfalso. apply elem_of_cons in Hin' as [?|?]; [congruence|done].
Qed.

Lemma writesTo_writeLog_outside cs h ls l :
  l ∉ ls → writesTo l (writeLog cs h ls) = [].
Proof.
  revert ls. induction cs as [|c cs IH]; intros ls Hl; [done|].
  cbn [writeLog]. rewrite !writesTo_app.
  assert (Hsub : ∀ (P : nat → Prop) `{∀ x, Decision (P x)}, l ∉ filter P ls).
  { intros P ? [_ ?]%list_elem_of_filter. done. }
  rewrite IH by apply Hsub.
  unfold writesTo. rewrite !app_nil_r.
  assert (Hnone : ∀ p (g : list nat), l ∉ g →
            snd <$> filter (λ e : nat * string, e.1 = l) ((λ l', (l', p)) <$> g) = []).
  { intros p g Hg. induction g as [|a g IHg]; [done|].
    rewrite fmap_cons, filter_cons. cbn [fst].
    destruct (decide (a = l)) as [->|_].
    - exfalso. apply Hg, list_elem_of_here.
    - apply IHg. intros ?. apply Hg. by apply list_elem_of_further. }
  by rewrite !Hnone by apply Hsub.
Qed.

Lemma writesTo_writeLog cs h ls l n :
  NoDup ls → l ∈ ls → h !! l = Some n →
  (∀ k c, firstMatch cs n k c →
     writesTo l (writeLog cs h ls) = replicate k "/" ++ [path c]) ∧
  (noMatch cs n → writesTo l (writeLog cs h ls) = replicate (length cs) "/").
Proof.
  intros Hnd Hl Hn. revert ls Hnd Hl.
  induction cs as [|c cs IH]; intros ls Hnd Hl.
  - split; [by intros k c [? _]|done].
  - cbn [writeLog]. rewrite !writesTo_app.
    rewrite !writesTo_stamp by by apply NoDup_filter.
    set (coll := filter (λ l, holds (selectorOf c) h l) ls).
    set (res := filter (λ l, holds (λ n, negb (selectorOf c n)) h l) ls).
    assert (Hcoll : l ∈ coll ↔ selectorOf c n = true).
    { unfold coll. rewrite elem_of_collection. split.
      - intros [_ (n' & Hn' & Hs)]. congruence.
      - intros Hs. split; [done|]. by exists n. }
    assert (Hres : l ∈ res ↔ selectorOf c n = false).
    { unfold res. rewrite elem_of_residual. split.
      - intros [_ (n' & Hn' & Hs)]. congruence.
      - intros Hs. split; [done|]. by exists n. }
    destruct (selectorOf c n) eqn:Hsel.
    + rewrite decide_True by by apply Hcoll.
      rewrite decide_False by (rewrite Hres; done).
      rewrite writesTo_writeLog_outside by (rewrite Hres; done).
      split.
      * intros [|k] c'.
        -- by intros [-> _]%firstMatch_here.
        -- intros [Hs _]%firstMatch_later. congruence.
      * intros [Hs _]%noMatch_cons. congruence.
    + rewrite decide_False by (rewrite Hcoll; done).
      rewrite decide_True by by apply Hres.
      destruct (IH res) as [IHfirst IHno];
        [by apply NoDup_filter|by apply Hres|].
      split.
      * intros [|k] c'.
        -- intros [_ Hs]%firstMatch_here. congruence.
        -- intros [_ Hk]%firstMatch_later. by rewrite (IHfirst k c' Hk).
      * intros [_ Hno]%noMatch_cons. by rewrite (IHno Hno).
Qed.

Section WriteClaims.
Variable resolveUrl : string → option string → option string → option string → string.
Variable infiniteScroll : bool → list Node → IScroll.

(** C3 (as the code has it): with selectors that do not read
    [collectionPath], every partitioning step that still has a post among
    its edges assigns its [collectionPath] once: [/] in each step before the
    first collection that accepts the post, the path of that collection in
    the step that accepts it, and nothing afterwards.  A post no collection
    accepts is assigned [/] once per configured collection. *)
Theorem collectionPath_written_once_per_step t tpl res w l n :
  errors res = None →
  Forall (λ c, stable (selectorOf c)) (collectionsOf t) →
  allGhostPost res !! l = Some n →
  let cs := collectionsOf t in
  let out := createPages resolveUrl infiniteScroll t tpl res w in
  ∃ log,
    writes out.2 = writes w ++ log ∧
    (∀ k c, firstMatch cs n k c → writesTo l log = replicate k "/" ++ [path c]) ∧
    (noMatch cs n → writesTo l log = replicate (length cs) "/") ∧
    ((∃ k c, firstMatch cs n k c) ∨ noMatch cs n).
Proof.
  intros Herr Hst Hn cs out.
  destruct (createPages_run resolveUrl infiniteScroll t tpl res w Herr Hst)
    as (h' & r & taxR & _ & _ & _ & Hrun).
  subst out. rewrite Hrun. cbn [snd writes].
  eexists. split; [reflexivity|].
  destruct (writesTo_writeLog cs (allGhostPost res)
              (seq 0 (length (allGhostPost res))) l n) as [Hfirst Hnone];
    [apply NoDup_seq|by eapply seq_lookup_node|done|].
  split; [exact Hfirst|]. split; [exact Hnone|apply firstMatch_or_noMatch].
Qed.

End WriteClaims.

Lemma collectionPath_written_once_per_step_witness :
  let out := createPages sampleResolve sampleScroll twoTheme sampleTemplates
               sampleResult emptyWorld in
  errors sampleResult = None ∧
  allGhostPost sampleResult !! 2 = Some postC ∧
  writes out.2 = [(0, "/"); (1, "/"); (2, "/"); (2, "/quiet/"); (0, "/"); (1, "/")] ∧
  ∃ log, writes out.2 = log ∧ writesTo 2 log = ["/"; "/quiet/"].
Proof.
  intros out.
  assert (Herr : errors sampleResult = None) by reflexivity.
  assert (Hn : allGhostPost sampleResult !! 2 = Some postC) by reflexivity.
  assert (Hst : Forall (λ c, stable (selectorOf c)) (collectionsOf twoTheme)).
  { repeat constructor. }
  split; [exact Herr|]. split; [exact Hn|]. split; [vm_compute; reflexivity|].
  destruct (collectionPath_written_once_per_step sampleResolve sampleScroll twoTheme
              sampleTemplates sampleResult emptyWorld 2 postC Herr Hst Hn)
    as (log & Hlog & Hfirst & _ & _).
  exists log. split; [exact Hlog|].
  apply (Hfirst 1 (mkCollection "/quiet/" (Some (hasTag "quiet")))).
  split; [reflexivity|]. split; [vm_compute; reflexivity|].
  intros j c' Hj Hc'. assert (j = 0) as -> by lia.
  injection Hc' as <-. vm_compute. reflexivity.
Defined.

(** A post taken by the second collection is assigned twice: [/] by the
    first step, then the path of its collection. *)
Lemma collectionPath_reassigned :
  let out := createPages sampleResolve sampleScroll twoTheme sampleTemplates
               sampleResult emptyWorld in
  out.1 = Ok tt ∧
  writesTo 2 (writes out.2) = ["/"; "/quiet/"] ∧
  ¬ (length (writesTo 2 (writes out.2)) ≤ 1)%nat ∧
  ¬ (∀ p q, p ∈ writesTo 2 (writes out.2) → q ∈ writesTo 2 (writes out.2) → p = q).
Proof.
  intros out.
  assert (Hw : writesTo 2 (writes out.2) = ["/"; "/quiet/"]) by (vm_compute; reflexivity).
  split; [vm_compute; reflexivity|]. split; [exact Hw|]. rewrite Hw. split.
  - simpl. lia.
  - intros Hsame. specialize (Hsame "/" "/quiet/").
    assert (Habs : "/" = "/quiet/"); [|discriminate].
    apply Hsame; [apply list_elem_of_here|apply list_elem_of_further, list_elem_of_here].
Qed.

(** ** Running twice *)

Lemma stampNode_twice cs ls l n :
  Forall (λ c, stable (selectorOf c)) cs →
  stampNode cs ls l (stampNode cs ls l n) = stampNode cs ls l n.
Proof.
  intros Hst. unfold stampNode. destruct cs as [|c cs]; [done|].
  destruct (decide (l ∈ ls)); [|done].
  by rewrite assignedPath_stamped, set_collectionPath_twice.
Qed.

Section TwoRuns.
Variable resolveUrl : string → option string → option string → option string → string.
Variable infiniteScroll : bool → list Node → IScroll.

(** C10 (as the code has it): with selectors that do not read
    [collectionPath], a second run of the planner that is handed the very
    post nodes the first run has stamped gives what the first run gave: the
    same outcome, the same routes in the same order with the same paths and
    contexts, the same nodes. *)
Theorem two_run_idempotence t tpl res w :
  Forall (λ c, stable (selectorOf c)) (collectionsOf t) →
  let out := createPages resolveUrl infiniteScroll t tpl res w in
  createPages resolveUrl infiniteScroll t tpl (refetched res (heap out.2)) w = out.
Proof.
  intros Hst out.
  destruct (errors res) as [e|] eqn:Herr.
  { subst out. unfold createPages. cbn [refetched errors]. by rewrite Herr. }
  destruct (createPages_run resolveUrl infiniteScroll t tpl res w Herr Hst)
    as (h1 & r1 & taxR1 & Hheap1 & _ & Htax1 & Hrun1).
  assert (Hout : heap out.2 = h1) by (subst out; by rewrite Hrun1).
  rewrite Hout. subst out. rewrite Hrun1.
  destruct (createPages_run resolveUrl infiniteScroll t tpl (refetched res h1) w
              Herr Hst) as (h2 & r2 & taxR2 & Hheap2 & _ & Htax2 & Hrun2).
  rewrite Hrun2. clear Hrun1 Hrun2.
  cbn [refetched allGhostPost allGhostTag allGhostPage] in *.
  set (h := allGhostPost res) in *. set (cs := collectionsOf t) in *.
  assert (Hlen : length h1 = length h) by by eapply stampNode_length.
  rewrite Hlen in *. set (ls := seq 0 (length h)) in *.
  assert (Hun : unstamped <$> h1 = unstamped <$> h) by by eapply stampNode_unstamped.
  assert (Hh : h2 = h1).
  { apply list_eq. intros l. rewrite Hheap2, Hheap1.
    destruct (h !! l) as [n|]; [|done]. cbn [fmap option_fmap option_map].
    by rewrite stampNode_twice. }
  subst h2.
  pose proof (Htax1 (mkWorld h1 [] []) eq_refl) as E1.
  pose proof (Htax2 (mkWorld h1 [] []) eq_refl) as E2.
  assert (E : createTaxonomies resolveUrl infiniteScroll
                (createOptionsOf t (refetched res h1)) tpl (refetched res h1) ls
                (mkWorld h1 [] []) =
              createTaxonomies resolveUrl infiniteScroll
                (createOptionsOf t res) tpl res ls (mkWorld h1 [] [])) by reflexivity.
  rewrite E, E1 in E2. cbn [writes created app] in E2.
  injection E2 as -> ->.
  rewrite (carve_unstamped cs h1 h ls Hst Hun).
  rewrite (writeLog_unstamped cs h1 h ls Hst Hun).
  assert (Hz : zip_with (collectionRoutes resolveUrl infiniteScroll
                           (createOptionsOf t (refetched res h1)) tpl
                           (allGhostTag res) h1) cs (carve cs h ls).1 =
               zip_with (collectionRoutes resolveUrl infiniteScroll
                           (createOptionsOf t res) tpl
                           (allGhostTag res) h) cs (carve cs h ls).1).
  { apply zip_with_ext; [|done|done].
    intros c g. unfold collectionRoutes.
    by rewrite (deref_unstamped _ h1 h g Hun). }
  rewrite Hz. reflexivity.
Qed.

End TwoRuns.

Lemma two_run_idempotence_witness :
  let first := createPages sampleResolve sampleScroll overlapTheme sampleTemplates
                 sampleResult emptyWorld in
  let second := createPages sampleResolve sampleScroll overlapTheme sampleTemplates
                  (refetched sampleResult (heap first.2)) emptyWorld in
  Forall (λ c, stable (selectorOf c)) (collectionsOf overlapTheme) ∧
  collectionPath <$> allGhostPost sampleResult = [None; None; None] ∧
  collectionPath <$> heap first.2 = [Some "/all/"; Some "/news/"; Some "/all/"] ∧
  second = first ∧ created second.2 = created first.2.
Proof.
  intros first second.
  assert (Hst : Forall (λ c, stable (selectorOf c)) (collectionsOf overlapTheme)).
  { repeat constructor. }
  pose proof (two_run_idempotence sampleResolve sampleScroll overlapTheme
                sampleTemplates sampleResult emptyWorld Hst) as Hsecond.
  cbv zeta in Hsecond. fold first in Hsecond. fold second in Hsecond.
  split; [exact Hst|]. split; [reflexivity|]. split; [vm_compute; reflexivity|].
  split; [exact Hsecond|]. by rewrite Hsecond.
Defined.

(** The selectors must not read the stamp: [getCollection] asks a selector
    twice about every post, before and after stamping the posts it accepts, so
    a selector that reads [collectionPath] can put a post both in its
    collection and in the rest, and a second run over the stamped nodes
    differs from the first: here the first run creates the post routes
    twice, the second, which finds every post stamped, once. *)
Lemma second_run_differs :
  let first := createPages sampleResolve sampleScroll stampReadingTheme sampleTemplates
                 sampleResult emptyWorld in
  let second := createPages sampleResolve sampleScroll stampReadingTheme sampleTemplates
                  (refetched sampleResult (heap first.2)) emptyWorld in
  ¬ stable unstampedOnly ∧
  first.1 = Ok tt ∧ second.1 = Ok tt ∧
  route_path <$> created first.2 =
    ["/blog//post-a"; "/blog//post-b"; "/blog//post-c"; "/blog//fresh/";
     "/blog//post-a"; "/blog//post-b"; "/blog//post-c"; "/blog//";
     "/blog//news"] ∧
  route_path <$> created second.2 =
    ["/blog//fresh/";
     "/blog//post-a"; "/blog//post-b"; "/blog//post-c"; "/blog//";
     "/blog//news"] ∧
  created second.2 ≠ created first.2.
Proof.
  intros first second. split_and!.
  - intros Hs. specialize (Hs (Some "/") postA). discriminate.
  - vm_compute. reflexivity.
  - vm_compute. reflexivity.
  - vm_compute. reflexivity.
  - vm_compute. reflexivity.
  - intros Heq. apply (f_equal length) in Heq. vm_compute in Heq. discriminate.
Qed.


(** * Further properties of the planner *)

(** ** One partitioning step *)

Lemma stampAll_length p ls h : length (stampAll p ls h) = length h.
Proof.
  unfold stampAll. revert h. induction ls as [|a ls IH]; intros h; simpl; [done|].
  by rewrite IH, length_alter.
Qed.

Lemma elem_of_stamp_log (l : nat) (v p : string) (g : list nat) :
  (l, v) ∈ (λ l', (l', p)) <$> g ↔ v = p ∧ l ∈ g.
Proof.
  rewrite list_elem_of_fmap. split.
  - intros (l' & [= -> ->] & Hl). done.
  - intros [-> Hl]. by exists l.
Qed.

Lemma getCollection_any posts p sel w :
  ∃ collection residual w',
    getCollection posts p sel w = (Ok (collection, residual), w') ∧
    created w' = created w ∧
    length (heap w') = length (heap w) ∧
    unstamped <$> heap w' = unstamped <$> heap w ∧
    (∀ l, l ∉ posts → heap w' !! l = heap w !! l) ∧
    collection `sublist_of` posts ∧
    residual `sublist_of` posts ∧
    (∀ l, l ∈ residual → collectionPath <$> heap w' !! l = Some (Some "/")) ∧
    ∃ log, writes w' = writes w ++ log ∧
           ∀ l v, (l, v) ∈ log → l ∈ posts ∧ (v = p ∨ v = "/").
Proof.
  rewrite getCollection_steps. cbv zeta.
  set (coll := filter (λ l, holds sel (heap w) l) posts).
  set (h1 := stampAll (Some p) coll (heap w)).
  set (res := filter (λ l, holds (λ n, negb (sel n)) h1 l) posts).
  eexists coll, res, _. split; [reflexivity|]. cbn [heap writes created].
  split_and!.
  - done.
  - unfold h1. by rewrite !stampAll_length.
  - unfold h1. by rewrite !stampAll_unstamped.
  - intros l Hl. unfold h1. rewrite !stampAll_lookup.
    rewrite decide_False by (intros [_ ?]%list_elem_of_filter; done).
    rewrite decide_False by (intros [_ ?]%list_elem_of_filter; done). done.
  - apply sublist_filter.
  - apply sublist_filter.
  - intros l Hl. rewrite stampAll_lookup, decide_True by done.
    apply list_elem_of_filter in Hl as [Hl _]. apply Is_true_true in Hl.
    unfold holds in Hl. destruct (h1 !! l); [done|discriminate].
  - eexists. split; [reflexivity|]. intros l v [Hin|Hin]%elem_of_app.
    + apply elem_of_stamp_log in Hin as [-> [_ Hl]%list_elem_of_filter]. auto.
    + apply elem_of_stamp_log in Hin as [-> [_ Hl]%list_elem_of_filter]. auto.
Qed.

(** X1: whatever the selector does, [getCollection] returns normally, creates no
    page, and changes nothing on the heap but [collectionPath] fields of the
    posts it was given: the other fields of every node, the number of nodes
    and the nodes of other edges stay as they were.  Every assignment it
    makes is to one of its posts, of its collection path or of [/]; both
    lists it returns keep the order of its input, and every post of the
    residual list ends with [/]. *)
Theorem getCollection_only_stamps posts p sel w :
  ∃ collection residual w',
    getCollection posts p sel w = (Ok (collection, residual), w') ∧
    created w' = created w ∧
    length (heap w') = length (heap w) ∧
    unstamped <$> heap w' = unstamped <$> heap w ∧
    (∀ l, l ∉ posts → heap w' !! l = heap w !! l) ∧
    collection `sublist_of` posts ∧
    residual `sublist_of` posts ∧
    (∀ l, l ∈ residual → collectionPath <$> heap w' !! l = Some (Some "/")) ∧
    ∃ log, writes w' = writes w ++ log ∧
           ∀ l v, (l, v) ∈ log → l ∈ posts ∧ (v = p ∨ v = "/").
Proof. apply getCollection_any. Qed.

(** X2: with a selector that does not read [collectionPath], one step splits its
    posts in two: the posts the selector accepts, stamped with the collection
    path, and the others, stamped with [/]; no post is in both lists or in
    neither. *)
Theorem getCollection_partitions posts p sel w :
  stable sel →
  (∀ l, l ∈ posts → l < length (heap w)) →
  ∃ collection residual w',
    getCollection posts p sel w = (Ok (collection, residual), w') ∧
    collection ++ residual ≡ₚ posts ∧
    ∀ l n, l ∈ posts → heap w !! l = Some n →
      if sel n
      then l ∈ collection ∧ (l ∉ residual) ∧
           heap w' !! l = Some (set_collectionPath (Some p) n)
      else l ∈ residual ∧ (l ∉ collection) ∧
           heap w' !! l = Some (set_collectionPath (Some "/") n).
Proof.
  intros Hs Hvalid. rewrite (getCollection_run posts p sel w Hs). cbv zeta.
  set (h := heap w).
  set (coll := filter (λ l, holds sel h l) posts).
  set (res := filter (λ l, holds (λ n, negb (sel n)) h l) posts).
  eexists coll, res, _. split; [reflexivity|]. cbn [heap]. split.
  - unfold res.
    rewrite (filter_ext_in (λ l, holds (λ n, negb (sel n)) h l)
               (λ l, ¬ holds sel h l) posts).
    + apply filter_app_complement.
    + intros l Hl. rewrite holds_negb by auto.
      destruct (holds sel h l); simpl; naive_solver.
  - intros l n Hl Hn. rewrite !stampAll_lookup, Hn.
    assert (Hcoll : l ∈ coll ↔ sel n = true).
    { unfold coll. rewrite elem_of_collection. split.
      - intros [_ (n' & Hn' & Hsel)]. congruence.
      - intros Hsel. split; [done|]. by exists n. }
    assert (Hres : l ∈ res ↔ sel n = false).
    { unfold res. rewrite elem_of_residual. split.
      - intros [_ (n' & Hn' & Hsel)]. congruence.
      - intros Hsel. split; [done|]. by exists n. }
    destruct (sel n) eqn:Hsel.
    + assert (Hin : l ∈ coll) by by apply Hcoll.
      assert (Hout : l ∉ res) by (rewrite Hres; done).
      rewrite (decide_False (P := l ∈ res)) by done.
      rewrite (decide_True (P := l ∈ coll)) by done. done.
    + assert (Hin : l ∈ res) by by apply Hres.
      assert (Hout : l ∉ coll) by (rewrite Hcoll; done).
      rewrite (decide_True (P := l ∈ res)) by done.
      rewrite (decide_False (P := l ∈ coll)) by done. done.
Qed.

Lemma getCollection_partitions_witness :
  let w := mkWorld [postA; postB; postC] [] [] in
  stable (hasTag "news") ∧
  (getCollection [0; 1; 2] "/news/" (hasTag "news") w).1 = Ok ([1], [0; 2]) ∧
  ∃ collection residual w',
    getCollection [0; 1; 2] "/news/" (hasTag "news") w =
      (Ok (collection, residual), w') ∧
    collection ++ residual ≡ₚ [0; 1; 2].
Proof.
  intros w.
  assert (Hs : stable (hasTag "news")) by by intros p n.
  split; [exact Hs|]. split; [vm_compute; reflexivity|].
  destruct (getCollection_partitions [0; 1; 2] "/news/" (hasTag "news") w Hs)
    as (coll & res & w' & Hrun & Hperm & _).
  - intros l Hl. simpl.
    repeat (apply elem_of_cons in Hl as [->|Hl]; [lia|]). by apply elem_of_nil in Hl.
  - by exists coll, res, w'.
Defined.

Lemma filter_none {A} (P : A → Prop) `{∀ x, Decision (P x)} (l : list A) :
  (∀ x, x ∈ l → ¬ P x) → filter P l = [].
Proof.
  induction l as [|a l IH]; intros Hno; [done|].
  rewrite filter_cons_False by (apply Hno, list_elem_of_here).
  apply IH. intros x Hx. by apply Hno, list_elem_of_further.
Qed.

Lemma filter_all {A} (P : A → Prop) `{∀ x, Decision (P x)} (l : list A) :
  (∀ x, x ∈ l → P x) → filter P l = l.
Proof.
  induction l as [|a l IH]; intros Hall; [done|].
  rewrite filter_cons_True by (apply Hall, list_elem_of_here). f_equal.
  apply IH. intros x Hx. by apply Hall, list_elem_of_further.
Qed.

(** X3: a collection configured without a selector takes no post: the step
    returns an empty collection and all its posts as residual, each stamped
    with [/]. *)
Theorem getCollection_default_selector posts c w :
  selector c = None →
  (∀ l, l ∈ posts → l < length (heap w)) →
  ∃ w',
    getCollection posts (path c) (selectorOf c) w = (Ok ([], posts), w') ∧
    writes w' = writes w ++ ((λ l, (l, "/")) <$> posts) ∧
    created w' = created w ∧
    ∀ l n, l ∈ posts → heap w !! l = Some n →
           heap w' !! l = Some (set_collectionPath (Some "/") n).
Proof.
  intros Hsel Hvalid. rewrite getCollection_steps. cbv zeta.
  unfold selectorOf. rewrite Hsel. cbn [default].
  assert (Hnone : filter (λ l, holds (λ _ : Node, false) (heap w) l) posts = []).
  { apply filter_none. intros l _. unfold holds.
    destruct (heap w !! l); auto. }
  rewrite Hnone. cbn [stampAll foldl fmap list_fmap app].
  assert (Hall : filter (λ l, holds (λ _ : Node, negb false) (heap w) l) posts = posts).
  { apply filter_all. intros l Hl. unfold holds.
    destruct (lookup_lt_is_Some_2 (heap w) l (Hvalid l Hl)) as [n ->]. done. }
  rewrite Hall. eexists. split; [reflexivity|]. cbn [heap writes created].
  split_and!; try done.
  intros l n Hl Hn. by rewrite stampAll_lookup, decide_True, Hn.
Qed.

Lemma getCollection_default_selector_witness :
  ∃ w', getCollection [0; 1; 2] "/empty/" (selectorOf (mkCollection "/empty/" None))
          (mkWorld [postA; postB; postC] [] []) = (Ok ([], [0; 1; 2]), w') ∧
        writes w' = [(0, "/"); (1, "/"); (2, "/")].
Proof.
  destruct (getCollection_default_selector [0; 1; 2] (mkCollection "/empty/" None)
              (mkWorld [postA; postB; postC] [] []))
    as (w' & Hrun & Hlog & _).
  - reflexivity.
  - intros l Hl. simpl.
    repeat (apply elem_of_cons in Hl as [->|Hl]; [lia|]). by apply elem_of_nil in Hl.
  - exists w'. split; [exact Hrun|exact Hlog].
Defined.

(** ** The table of collection paths *)

(** X4: [getCollectionPaths] never touches the nodes or the pages.  Called with
    no id list it throws a [TypeError]; called with an empty list it returns
    the empty table whatever the posts are; and, [__proto__] not being among
    the requested ids, the table it returns has exactly the requested ids as
    keys, each mapped to the [collectionPath] of the first post with that
    id. *)
Theorem getCollectionPaths_table ids posts w :
  (∀ l, ids = Some l → "__proto__" ∉ l) →
  let out := getCollectionPaths ids posts w in
  out.2 = w ∧
  (ids = None → out.1 = Throw TypeError) ∧
  (ids = Some [] → out.1 = Ok ∅) ∧
  ∀ m, out.1 = Ok m →
    ∃ l, ids = Some l ∧
      (∀ i, is_Some (m !! i) ↔ i ∈ l) ∧
      (∀ i v, m !! i = Some v → ∃ n, firstWithId i posts n ∧ collectionPath n = v).
Proof.
  intros _ out. subst out. destruct ids as [l|]; cbn [getCollectionPaths].
  2: { unfold throw. cbn [fst snd]. split_and!; try done. }
  destruct (decide (Forall (λ i, i ∈ node_id <$> posts) l)) as [Hall|Hnot].
  - destruct (collectPaths_ok l posts ∅) as (m0 & Hm0 & Hlook).
    { intros i Hi. apply findById_is_Some. by eapply (proj1 (Forall_forall _ _) Hall). }
    rewrite Hm0. unfold ret. cbn [fst snd]. split_and!; try done.
    + intros [= ->]. simpl in Hm0. congruence.
    + intros m [= <-]. exists l. split; [done|]. split.
      * intros i. rewrite Hlook. destruct (decide (i ∈ l)) as [Hi|Hi].
        -- split; [done|]. intros _.
           destruct (proj2 (findById_is_Some i posts)) as [n ->]; [|by eexists].
           by eapply (proj1 (Forall_forall _ _) Hall).
        -- rewrite lookup_empty. split; [by intros [? ?]|done].
      * intros i v. rewrite Hlook. destruct (decide (i ∈ l)) as [Hi|Hi].
        -- destruct (findById i posts) as [n|] eqn:Hn; [|done].
           intros [= <-]. exists n. split; [by apply findById_first|done].
        -- by rewrite lookup_empty.
  - pose proof (getCollectionPaths_cases l posts w) as Hc.
    rewrite decide_False in Hc by done. unfold getCollectionPaths in Hc.
    rewrite Hc. cbn [fst snd]. split_and!; try done.
    intros [= ->]. exfalso. apply Hnot. constructor.
Qed.

(** ** Post pages *)

Lemma firstWithId_unique_ids i posts n0 node :
  NoDup (node_id <$> posts) → firstWithId i posts n0 → node ∈ posts →
  node_id node = i → n0 = node.
Proof.
  intros Hnd (l1 & l2 & -> & Hid & Hl1) Hin Hnode.
  rewrite fmap_app, fmap_cons in Hnd.
  apply NoDup_app in Hnd as (_ & _ & Hnd). apply NoDup_cons in Hnd as [Hnotin _].
  apply elem_of_app in Hin as [Hin|Hin]; [by specialize (Hl1 node Hin)|].
  apply elem_of_cons in Hin as [->|Hin]; [done|].
  exfalso. apply Hnotin. rewrite Hid, <- Hnode. by apply list_elem_of_fmap_2.
Qed.

Section PostPageRoutes.
Variable resolveUrl : string → option string → option string → option string → string.

Lemma createPostPages_table o posts tags tpl amp :
  ∃ m,
    (∀ i, m !! i = if decide (i ∈ node_id <$> posts)
                   then collectionPath <$> findById i posts else None) ∧
    emits (createPostPages resolveUrl o posts tags tpl amp) tt
      (imap (λ i node,
         postRoute resolveUrl o tags tpl amp m
           (match i with 0 => sentinelNode | S j => default sentinelNode (posts !! j) end)
           (default sentinelNode (posts !! S i)) node) posts).
Proof.
  destruct (createPostPages_emits resolveUrl o posts tags tpl amp)
    as (paths & _ & Hpaths & Hrun).
  destruct (collectPaths_ok (node_id <$> posts) posts ∅) as (m & Hm & Hlook).
  { intros i Hi. by apply findById_is_Some. }
  assert (paths = m) as ->.
  { specialize (Hpaths emptyWorld). unfold getCollectionPaths in Hpaths.
    rewrite Hm in Hpaths. unfold ret in Hpaths. congruence. }
  exists m. split; [|done]. intros i. rewrite Hlook.
  destruct (decide (i ∈ node_id <$> posts)); [done|apply lookup_empty].
Qed.

(** X5: [createPostPages] never throws and leaves the nodes alone.  It creates
    one route per post, in the order of the posts; no post having the id
    [__proto__], all of them carry the same table, whose keys are exactly
    the ids of these posts, and the route of a post is resolved with the
    [collectionPath] of the first post of the list that has its id, which is
    the post itself when ids are unique. *)
Theorem createPostPages_routes o posts tags tpl amp w :
  "__proto__" ∉ node_id <$> posts →
  ∃ m rs,
    createPostPages resolveUrl o posts tags tpl amp w =
      (Ok tt, mkWorld (heap w) (writes w) (created w ++ rs)) ∧
    length rs = length posts ∧
    (∀ i, is_Some (m !! i) ↔ i ∈ node_id <$> posts) ∧
    ∀ i node, posts !! i = Some node →
      ∃ r c n0,
        rs !! i = Some r ∧ component r = tpl ∧ route_context r = PostCtx c ∧
        collectionPaths c = m ∧
        tag c = default "" (primary_tag node) ∧ limit c = 3%Z ∧ skip c = 0%Z ∧
        firstWithId (node_id node) posts n0 ∧
        m !! node_id node = Some (collectionPath n0) ∧
        route_path r =
          resolveUrl (basePath o) (collectionPath n0) (Some (slug node)) (url node)
          +:+ amp ∧
        (NoDup (node_id <$> posts) → n0 = node).
Proof.
  intros _.
  destruct (createPostPages_table o posts tags tpl amp) as (m & Hlook & Hrun).
  eexists m, _. split; [apply Hrun|]. split; [by rewrite length_imap|]. split.
  - intros i. rewrite Hlook. destruct (decide (i ∈ node_id <$> posts)) as [Hi|Hi].
    + split; [done|]. intros _.
      destruct (proj2 (findById_is_Some i posts) Hi) as [n ->]. by eexists.
    + split; [by intros [? ?]|done].
  - intros i node Hi.
    assert (Hin : node ∈ posts) by by eapply list_elem_of_lookup_2.
    destruct (findById_own posts node Hin) as [n0 Hn0].
    assert (Hm : m !! node_id node = Some (collectionPath n0)).
    { rewrite Hlook, decide_True by by apply list_elem_of_fmap_2. by rewrite Hn0. }
    eexists _, _, n0. rewrite list_lookup_imap, Hi. cbn [fmap option_fmap option_map].
    split; [reflexivity|]. cbn [postRoute component route_context route_path
      collectionPaths tag limit skip].
    split_and!; try done.
    + by apply findById_first.
    + by rewrite Hm.
    + intros Hnd. apply findById_first in Hn0.
      by eapply firstWithId_unique_ids.
Qed.

(** X6: the [prev] and [next] links of a collection are inverse to each other:
    for two posts in a row, [next] of the first route is the slug of the
    second and [prev] of the second route is the slug of the first. *)
Theorem prev_next_inverse o posts tags tpl amp w i a b :
  posts !! i = Some a →
  posts !! S i = Some b →
  let out := createPostPages resolveUrl o posts tags tpl amp w in
  ∃ ra ca rb cb,
    created out.2 !! (length (created w) + i) = Some ra ∧
    created out.2 !! (length (created w) + S i) = Some rb ∧
    route_context ra = PostCtx ca ∧ route_context rb = PostCtx cb ∧
    pc_slug ca = slug a ∧ pc_slug cb = slug b ∧
    next ca = pc_slug cb ∧ prev cb = pc_slug ca.
Proof.
  intros Ha Hb out.
  destruct (createPostPages_route resolveUrl o posts tags tpl amp w i a Ha)
    as (_ & _ & _ & pa & Hra).
  destruct (createPostPages_route resolveUrl o posts tags tpl amp w (S i) b Hb)
    as (_ & _ & _ & pb & Hrb).
  eexists _, _, _, _. split; [exact Hra|]. split; [exact Hrb|].
  cbn [postRoute route_context pc_slug next prev]. rewrite Ha, Hb.
  by split_and!.
Qed.

End PostPageRoutes.

Lemma prev_next_inverse_witness :
  let out := createPostPages sampleResolve sampleOptions [postA; postB; postC]
               sampleTags "post.js" "" emptyWorld in
  [postA; postB; postC] !! 0 = Some postA ∧
  [postA; postB; postC] !! 1 = Some postB ∧
  ∃ ra ca rb cb,
    created out.2 !! 0 = Some ra ∧ created out.2 !! 1 = Some rb ∧
    route_context ra = PostCtx ca ∧ route_context rb = PostCtx cb ∧
    next ca = "post-b" ∧ prev cb = "post-a".
Proof.
  intros out.
  destruct (prev_next_inverse sampleResolve sampleOptions [postA; postB; postC]
              sampleTags "post.js" "" emptyWorld 0 postA postB eq_refl eq_refl)
    as (ra & ca & rb & cb & Hra & Hrb & Hca & Hcb & Hsa & Hsb & Hnext & Hprev).
  split; [reflexivity|]. split; [reflexivity|].
  exists ra, ca, rb, cb. split; [exact Hra|]. split; [exact Hrb|].
  split; [exact Hca|]. split; [exact Hcb|].
  rewrite Hnext, Hprev, Hsa, Hsb. by split.
Defined.

(** ** Taxonomy pages *)

Lemma forEach_app {A} (xs ys : list A) (f : A → M unit) w :
  forEach (xs ++ ys) f w = (forEach xs f ;;' forEach ys f) w.
Proof.
  revert w. induction xs as [|x xs IH]; intros w.
  - done.
  - rewrite <- app_comm_cons, !forEach_cons. unfold bind.
    destruct (f x w) as [[[]|e] w1]; [|done].
    rewrite IH. done.
Qed.

Section TaxonomyRuns.
Variable resolveUrl : string → option string → option string → option string → string.

(** X7: a failed lookup stops a taxonomy run where it happens: the pages of the
    nodes before the failing one have been created and stay, the failing
    node and the nodes after it get none, and the nodes are left alone.  A
    lookup fails when the node's slug has no id list or when its id list
    names a post that is not there. *)
Theorem createTaxonomyPages_partial o before node after postIds tpl allPosts w :
  (createTaxonomyPages resolveUrl o before postIds tpl allPosts w).1 = Ok tt →
  (∀ ids, postIds !! slug node = Some ids →
          ¬ Forall (λ i, i ∈ node_id <$> allPosts) ids) →
  createTaxonomyPages resolveUrl o (before ++ node :: after) postIds tpl allPosts w =
    (Throw TypeError,
     (createTaxonomyPages resolveUrl o before postIds tpl allPosts w).2) ∧
  ∃ rs, (createTaxonomyPages resolveUrl o before postIds tpl allPosts w).2 =
          mkWorld (heap w) (writes w) (created w ++ rs).
Proof.
  intros Hbefore Hbad.
  destruct (createTaxonomyPages_run resolveUrl o before postIds tpl allPosts)
    as (res & rs & _ & Hrun).
  split; [|exists rs; by rewrite Hrun].
  unfold createTaxonomyPages in *. rewrite forEach_app. unfold bind at 1.
  destruct (forEach before (taxonomyPages resolveUrl o postIds tpl allPosts) w)
    as [[[]|e] w1]; [|discriminate].
  cbn [snd]. rewrite forEach_cons. unfold bind.
  by rewrite taxonomyPages_throws.
Qed.

(** When every lookup succeeds a taxonomy run returns normally. *)
Lemma createTaxonomyPages_emits o taxonomy postIds tpl allPosts :
  (∀ node, node ∈ taxonomy →
     ∃ ids, postIds !! slug node = Some ids ∧
            Forall (λ i, i ∈ node_id <$> allPosts) ids) →
  emits (createTaxonomyPages resolveUrl o taxonomy postIds tpl allPosts) tt
    (routesOf (createTaxonomyPages resolveUrl o taxonomy postIds tpl allPosts)).
Proof.
  intros Hint.
  assert (H : ∃ rs, emits (createTaxonomyPages resolveUrl o taxonomy postIds tpl
                             allPosts) tt rs).
  { unfold createTaxonomyPages. induction taxonomy as [|node taxonomy IH].
    - exists []. apply emits_ret.
    - destruct (Hint node (list_elem_of_here _ _)) as (ids & Hids & Hall).
      destruct (taxonomyPages_emits resolveUrl o postIds tpl allPosts node ids Hids Hall)
        as (m & Hm).
      destruct IH as (rs & Hrs).
      { intros node' Hin. apply Hint. by apply list_elem_of_further. }
      eexists. intros w. rewrite forEach_cons. revert w.
      eapply emits_bind; [exact Hm|exact Hrs]. }
  destruct H as (rs & Hrs). by rewrite (emits_routesOf _ _ _ Hrs).
Qed.

End TaxonomyRuns.

Lemma createTaxonomyPages_partial_witness :
  let postIds : gmap string (list string) := {[ "news" := ["b"] ]} in
  let news := sampleTag "news" (Some 2%Z) in
  let lost := sampleTag "lost" (Some 1%Z) in
  let out := createTaxonomyPages sampleResolve sampleOptions [news; lost; news]
               postIds "tag.js" [postA; postB; postC] emptyWorld in
  postIds !! slug lost = None ∧
  out.1 = Throw TypeError ∧
  route_path <$> created out.2 = ["//news"].
Proof.
  intros postIds news lost out.
  split; [reflexivity|].
  destruct (createTaxonomyPages_partial sampleResolve sampleOptions [news] lost [news]
              postIds "tag.js" [postA; postB; postC] emptyWorld) as [Hrun _].
  - vm_compute. reflexivity.
  - intros ids Hids. discriminate.
  - subst out. change ([news; lost; news]) with ([news] ++ lost :: [news]).
    rewrite Hrun. split; [reflexivity|]. vm_compute. reflexivity.
Defined.

(** ** The run, whatever the selectors *)

Section AnySelectors.
Variable resolveUrl : string → option string → option string → option string → string.
Variable infiniteScroll : bool → list Node → IScroll.

Lemma forEachCollection_any o tpl tags cs :
  ∀ ls w,
    ∃ r w' rs log,
      forEachCollection resolveUrl infiniteScroll o tpl tags cs ls w = (Ok r, w') ∧
      created w' = created w ++ rs ∧
      writes w' = writes w ++ log ∧
      length (heap w') = length (heap w) ∧
      unstamped <$> heap w' = unstamped <$> heap w ∧
      (∀ l, l ∉ ls → heap w' !! l = heap w !! l) ∧
      r `sublist_of` ls ∧
      (∀ l v, (l, v) ∈ log → l ∈ ls ∧ (v = "/" ∨ ∃ c, c ∈ cs ∧ v = path c)).
Proof.
  induction cs as [|c cs IH]; intros ls w.
  - exists ls, w, [], []. cbn [forEachCollection]. unfold ret. rewrite !app_nil_r.
    split_and!; try done. by intros l v ?%elem_of_nil.
  - cbn [forEachCollection]. unfold bind at 1.
    destruct (getCollection_any ls (path c) (selectorOf c) w)
      as (coll & res & w1 & Hstep & Hcr1 & Hlen1 & Hun1 & Hframe1 & _ & Hsub1 & _
          & log1 & Hlog1 & Hvals1).
    rewrite Hstep. unfold bind at 1, nodesOf at 1. cbn [fst snd].
    unfold bind at 1.
    rewrite (createCollection_emits resolveUrl infiniteScroll o (deref (heap w1) coll)
               tpl tags (Some (path c))).
    match goal with
    | |- context [forEachCollection _ _ _ _ _ cs res ?w2] =>
        destruct (IH res w2)
          as (r & w' & rs & log & Hrun & Hcr & Hlog & Hlen & Hun & Hframe & Hsub & Hvals)
    end.
    cbn [heap writes created] in *.
    exists r, w', (routesOf (createCollection resolveUrl infiniteScroll o
                               (deref (heap w1) coll) tpl tags (Some (path c))) ++ rs),
      (log1 ++ log).
    split; [exact Hrun|]. split_and!.
    + rewrite Hcr, Hcr1. by rewrite <- !app_assoc.
    + rewrite Hlog, Hlog1. by rewrite <- !app_assoc.
    + congruence.
    + congruence.
    + intros l Hl. rewrite Hframe, Hframe1; [done|done|].
      intros Hin. apply Hl. by eapply elem_of_sublist.
    + by etrans.
    + intros l v [Hin|Hin]%elem_of_app.
      * destruct (Hvals1 l v Hin) as [Hl [->| ->]]; (split; [done|]).
        -- right. exists c. split; [apply list_elem_of_here|done].
        -- by left.
      * destruct (Hvals l v Hin) as [Hl Hv]. split; [by eapply elem_of_sublist|].
        destruct Hv as [->|(c' & Hc' & ->)]; [by left|].
        right. exists c'. split; [by apply list_elem_of_further|done].
Qed.

Lemma createPages_any t tpl res w :
  errors res = None →
  let o := createOptionsOf t res in
  ∃ r h' rs taxR log,
    createPages resolveUrl infiniteScroll t tpl res w =
      (r, mkWorld h' (writes w ++ log)
            (created w ++
             routesOf (createOrdinaryPages resolveUrl o (allGhostPage res) (t_page tpl)) ++
             rs ++ taxR)) ∧
    (r = Ok tt ∨ r = Throw TypeError) ∧
    (∀ w0, heap w0 = h' →
       createTaxonomies resolveUrl infiniteScroll o tpl res
         (seq 0 (length (allGhostPost res))) w0 =
         (r, mkWorld h' (writes w0) (created w0 ++ taxR))) ∧
    length h' = length (allGhostPost res) ∧
    unstamped <$> h' = unstamped <$> allGhostPost res ∧
    (∀ l v, (l, v) ∈ log →
       l < length (allGhostPost res) ∧
       (v = "/" ∨ ∃ c, c ∈ collectionsOf t ∧ v = path c)).
Proof.
  intros Herr o. unfold createPages. rewrite Herr. cbv zeta. fold o.
  unfold bind at 1, materialize. cbn [fst snd].
  unfold bind at 1. rewrite (createOrdinaryPages_emits resolveUrl o (allGhostPage res)
                               (t_page tpl)).
  cbn [heap writes created]. unfold bind at 1.
  match goal with
  | |- context [forEachCollection _ _ _ _ _ ?cs ?ls ?w2] =>
      destruct (forEachCollection_any o tpl (allGhostTag res) cs ls w2)
        as (r & w3 & rs & log & Hrun & Hcr & Hlog & Hlen & Hun & _ & _ & Hvals)
  end.
  cbn [heap writes created] in *. rewrite Hrun.
  unfold bind at 1, nodesOf at 1. cbn [fst snd]. unfold bind at 1.
  rewrite (createCollection_emits resolveUrl infiniteScroll o (deref (heap w3) r)
             tpl (allGhostTag res) None).
  cbn [heap writes created].
  destruct (createTaxonomies_run resolveUrl infiniteScroll o tpl res
              (seq 0 (length (allGhostPost res))) (heap w3))
    as (rt & taxR & Hrt & Htax).
  rewrite Htax by done. cbn [heap writes created].
  exists rt, (heap w3),
    (rs ++ routesOf (createCollection resolveUrl infiniteScroll o (deref (heap w3) r)
                       tpl (allGhostTag res) None)), taxR, log.
  split_and!.
  - rewrite Hcr, Hlog. by rewrite <- !app_assoc.
  - done.
  - exact Htax.
  - done.
  - done.
  - intros l v Hin. destruct (Hvals l v Hin) as [Hl Hv]. split; [|done].
    apply elem_of_seq in Hl. lia.
Qed.

(** X8: without fetch errors and whatever the selectors do, [createPages] either
    returns normally or ends in the [TypeError] of a taxonomy lookup.  It
    keeps the routes created before it and every post: of a post it changes
    at most [collectionPath], and every value it assigns is [/] or the path
    of a configured collection. *)
Theorem createPages_only_stamps t tpl res w :
  errors res = None →
  let out := createPages resolveUrl infiniteScroll t tpl res w in
  (out.1 = Ok tt ∨ out.1 = Throw TypeError) ∧
  length (heap out.2) = length (allGhostPost res) ∧
  unstamped <$> heap out.2 = unstamped <$> allGhostPost res ∧
  (∃ rs, created out.2 = created w ++ rs) ∧
  ∃ log, writes out.2 = writes w ++ log ∧
    ∀ l v, (l, v) ∈ log →
      l < length (allGhostPost res) ∧
      (v = "/" ∨ ∃ c, c ∈ collectionsOf t ∧ v = path c).
Proof.
  intros Herr out.
  destruct (createPages_any t tpl res w Herr)
    as (r & h' & rs & taxR & log & Hrun & Hr & _ & Hlen & Hun & Hvals).
  subst out. rewrite Hrun. cbn [fst snd heap writes created].
  split_and!; try done.
  - by eexists.
  - by exists log.
Qed.

(** X9: the routes of the ordinary pages are the first [createPages] creates,
    one per page in the order of the pages, each resolved under [/] with the
    slug and the url of its page, whatever the posts and the collections
    are. *)
Theorem ordinary_pages_first t tpl res w i node :
  errors res = None →
  allGhostPage res !! i = Some node →
  let out := createPages resolveUrl infiniteScroll t tpl res w in
  created out.2 !! (length (created w) + i) =
    Some (mkRoute (resolveUrl (basePathOf t) (Some "/") (Some (slug node)) (url node))
            (t_page tpl) (PageCtx (slug node))).
Proof.
  intros Herr Hi out.
  destruct (createPages_any t tpl res w Herr)
    as (r & h' & rs & taxR & log & Hrun & _).
  subst out. rewrite Hrun. cbn [snd created].
  rewrite lookup_app_r by lia.
  replace (length (created w) + i - length (created w)) with i by lia.
  assert (Hpages : emits (createOrdinaryPages resolveUrl (createOptionsOf t res)
                            (allGhostPage res) (t_page tpl)) tt
            ((λ node, mkRoute
                (resolveUrl (basePathOf t) (Some "/") (Some (slug node)) (url node))
                (t_page tpl) (PageCtx (slug node))) <$> allGhostPage res)).
  { rewrite <- concat_fmap_singleton. unfold createOrdinaryPages.
    apply (emits_forEach _ _ (λ node, [mkRoute
             (resolveUrl (basePathOf t) (Some "/") (Some (slug node)) (url node))
             (t_page tpl) (PageCtx (slug node))])).
    intros n _. apply emits_createPage. }
  rewrite (emits_routesOf _ _ _ Hpages).
  rewrite lookup_app_l.
  - by rewrite list_lookup_fmap, Hi.
  - rewrite length_fmap. by eapply lookup_lt_Some.
Qed.

End AnySelectors.

Lemma createPages_only_stamps_witness :
  let out := createPages sampleResolve sampleScroll stampReadingTheme sampleTemplates
               sampleResult emptyWorld in
  errors sampleResult = None ∧
  ¬ stable unstampedOnly ∧
  out.1 = Ok tt ∧
  unstamped <$> heap out.2 = unstamped <$> allGhostPost sampleResult.
Proof.
  intros out.
  assert (Herr : errors sampleResult = None) by reflexivity.
  destruct (createPages_only_stamps sampleResolve sampleScroll stampReadingTheme
              sampleTemplates sampleResult emptyWorld Herr) as (_ & _ & Hun & _).
  split; [exact Herr|]. split.
  - intros Hs. specialize (Hs (Some "/") postA). discriminate.
  - split; [vm_compute; reflexivity|exact Hun].
Defined.

Lemma ordinary_pages_first_witness :
  let res := mkQueryResult None 3 [sampleTag "about" None; sampleTag "contact" None]
               [postA; postB; postC] sampleTags [] in
  let out := createPages sampleResolve sampleScroll newsTheme sampleTemplates res
               emptyWorld in
  errors res = None ∧
  allGhostPage res !! 1 = Some (sampleTag "contact" None) ∧
  route_path <$> created out.2 !! 1 = Some "/blog//contact".
Proof.
  intros res out.
  assert (Herr : errors res = None) by reflexivity.
  assert (Hi : allGhostPage res !! 1 = Some (sampleTag "contact" None)) by reflexivity.
  split; [exact Herr|]. split; [exact Hi|].
  pose proof (ordinary_pages_first sampleResolve sampleScroll newsTheme sampleTemplates
                res emptyWorld 1 (sampleTag "contact" None) Herr Hi) as Hr.
  cbv zeta in Hr. change (length (created emptyWorld) + 1) with 1 in Hr.
  subst out. rewrite Hr. vm_compute. reflexivity.
Defined.

(** ** Taxonomies after the partition *)

Lemma deref_all (h : list Node) : deref h (seq 0 (length h)) = h.
Proof.
  unfold deref.
  assert (H : ∀ pre, omap (λ l, (pre ++ h) !! l) (seq (length pre) (length h)) = h).
  { induction h as [|a h IH]; intros pre; [done|].
    cbn [length seq omap list_omap].
    rewrite (list_lookup_middle pre h a (length pre) eq_refl).
    f_equal. specialize (IH (pre ++ [a])).
    rewrite length_app, Nat.add_1_r, <- app_assoc in IH. exact IH. }
  apply (H []).
Qed.

Lemma unstamped_ids (h h' : list Node) :
  unstamped <$> h' = unstamped <$> h → node_id <$> h' = node_id <$> h.
Proof.
  intros Hun. apply (f_equal (fmap node_id)) in Hun.
  by rewrite <- !list_fmap_compose in Hun.
Qed.

Lemma stampNode_id cs ls l n : node_id (stampNode cs ls l n) = node_id n.
Proof. unfold stampNode. destruct cs; [done|]. by destruct (decide (l ∈ ls)). Qed.

Lemma firstWithId_stamped cs ls i n (h h' : list Node) :
  (∀ l, h' !! l = stampNode cs ls l <$> h !! l) →
  firstWithId i h n →
  ∃ k, h !! k = Some n ∧ firstWithId i h' (stampNode cs ls k n).
Proof.
  intros Hheap (l1 & l2 & -> & Hid & Hl1).
  exists (length l1). split; [by apply list_lookup_middle|].
  assert (Heq : h' = imap (stampNode cs ls) (l1 ++ n :: l2)).
  { apply list_eq. intros l. by rewrite Hheap, list_lookup_imap. }
  rewrite Heq, imap_app, imap_cons, Nat.add_0_r.
  eexists _, _. split; [reflexivity|]. split; [by rewrite stampNode_id|].
  intros n' (k & Hk)%list_elem_of_lookup_1.
  rewrite list_lookup_imap in Hk.
  destruct (l1 !! k) as [x|] eqn:Hx; [|done]. injection Hk as <-.
  rewrite stampNode_id. apply Hl1. by eapply list_elem_of_lookup_2.
Qed.

Section AfterPartition.
Variable resolveUrl : string → option string → option string → option string → string.
Variable infiniteScroll : bool → list Node → IScroll.

(** X10: the taxonomy pages come last and read the posts as the partitioning
    left them: after every other route, [createPages] creates the pages of
    the tags that have posts, then those of the authors that have posts, and
    when each of these nodes has an id list naming fetched posts only, it
    returns normally. *)
Theorem taxonomies_last t tpl res w :
  errors res = None →
  let out := createPages resolveUrl infiniteScroll t tpl res w in
  let o := createOptionsOf t res in
  let ids := infiniteScroll (iScrollEnabled o) (heap out.2) in
  let postTags := filter (λ n, hasPosts n) (allGhostTag res) in
  let postAuthors := filter (λ n, hasPosts n) (allGhostAuthor res) in
  (∀ node, node ∈ postTags →
     ∃ l, tagIds ids !! slug node = Some l ∧
          Forall (λ i, i ∈ node_id <$> allGhostPost res) l) →
  (∀ node, node ∈ postAuthors →
     ∃ l, authorIds ids !! slug node = Some l ∧
          Forall (λ i, i ∈ node_id <$> allGhostPost res) l) →
  out.1 = Ok tt ∧
  ∃ before,
    created out.2 =
      created w ++ before ++
      routesOf (createTaxonomyPages resolveUrl o postTags (tagIds ids) (t_tag tpl)
                  (heap out.2)) ++
      routesOf (createTaxonomyPages resolveUrl o postAuthors (authorIds ids)
                  (t_author tpl) (heap out.2)).
Proof.
  intros Herr out o ids postTags postAuthors Htags Hauthors.
  destruct (createPages_any resolveUrl infiniteScroll t tpl res w Herr)
    as (r & h' & rs & taxR & log & Hrun & _ & Htax & Hlen & Hun & _).
  subst postTags postAuthors ids out. fold o in Hrun, Htax.
  rewrite Hrun in *. cbn [fst snd heap created] in *.
  set (ids := infiniteScroll (iScrollEnabled o) h') in *.
  set (postTags := filter (λ n, hasPosts n) (allGhostTag res)) in *.
  set (postAuthors := filter (λ n, hasPosts n) (allGhostAuthor res)) in *.
  pose proof (unstamped_ids _ _ Hun) as Hids.
  specialize (Htax (mkWorld h' [] []) eq_refl).
  unfold createTaxonomies, bind at 1, nodesOf at 1 in Htax.
  cbn [fst snd heap] in Htax. rewrite <- Hlen, deref_all in Htax.
  fold ids postTags postAuthors in Htax.
  assert (Ht : emits (createTaxonomyPages resolveUrl o postTags (tagIds ids)
                        (t_tag tpl) h') tt
                 (routesOf (createTaxonomyPages resolveUrl o postTags (tagIds ids)
                              (t_tag tpl) h'))).
  { apply createTaxonomyPages_emits. intros node Hn.
    destruct (Htags node Hn) as (l & Hl & Hall). exists l. by rewrite Hids. }
  assert (Ha : emits (createTaxonomyPages resolveUrl o postAuthors (authorIds ids)
                        (t_author tpl) h') tt
                 (routesOf (createTaxonomyPages resolveUrl o postAuthors (authorIds ids)
                              (t_author tpl) h'))).
  { apply createTaxonomyPages_emits. intros node Hn.
    destruct (Hauthors node Hn) as (l & Hl & Hall). exists l. by rewrite Hids. }
  pose proof (emits_bind _ (λ _, createTaxonomyPages resolveUrl o postAuthors
                (authorIds ids) (t_author tpl) h') tt tt _ _ Ht Ha) as Hboth.
  rewrite (Hboth (mkWorld h' [] [])) in Htax. cbn [heap writes created app] in Htax.
  injection Htax as <- <-.
  split; [done|].
  exists (routesOf (createOrdinaryPages resolveUrl o (allGhostPage res) (t_page tpl))
          ++ rs).
  by rewrite <- !app_assoc.
Qed.

(** X11: a table built from the posts as [createPages] leaves them, as the
    taxonomy pages build theirs, maps the id of a post to the path of the
    first configured collection whose selector accepts the post, to [/] when
    collections are configured and none accepts it, and to whatever the post
    was fetched with when no collection is configured (selectors not reading
    [collectionPath]). *)
Theorem lookups_after_partition t tpl res w ids i n w0 :
  errors res = None →
  Forall (λ c, stable (selectorOf c)) (collectionsOf t) →
  Forall (λ j, j ∈ node_id <$> allGhostPost res) ids →
  i ∈ ids →
  firstWithId i (allGhostPost res) n →
  let cs := collectionsOf t in
  let out := createPages resolveUrl infiniteScroll t tpl res w in
  ∃ m,
    getCollectionPaths (Some ids) (heap out.2) w0 = (Ok m, w0) ∧
    (∀ k c, firstMatch cs n k c → m !! i = Some (Some (path c))) ∧
    (noMatch cs n → cs ≠ [] → m !! i = Some (Some "/")) ∧
    (cs = [] → m !! i = Some (collectionPath n)).
Proof.
  intros Herr Hst Hall Hi Hn cs out.
  destruct (createPages_run resolveUrl infiniteScroll t tpl res w Herr Hst)
    as (h' & r & taxR & Hheap & _ & _ & Hrun).
  subst out. rewrite Hrun. cbn [snd heap].
  pose proof (unstamped_ids _ _ (stampNode_unstamped _ _ _ _ Hheap)) as Hids.
  pose proof (getCollectionPaths_cases ids h' w0) as Hc.
  rewrite decide_True in Hc by by rewrite Hids.
  destruct Hc as (m & Hm & _ & Hlook). exists m. split; [exact Hm|].
  destruct (firstWithId_stamped _ _ _ _ _ _ Hheap Hn) as (k & Hk & Hn').
  rewrite (Hlook i _ Hi Hn').
  assert (Hkin : k ∈ seq 0 (length (allGhostPost res))) by by eapply seq_lookup_node.
  fold cs. unfold stampNode. split_and!.
  - intros j c Hfm. destruct cs as [|c0 cs0] eqn:Hcs; [by destruct Hfm as [? _]|].
    rewrite decide_True by done. cbn [collectionPath set_collectionPath].
    by rewrite (assignedPath_firstMatch _ _ _ _ Hfm).
  - intros Hno Hne. destruct cs as [|c0 cs0] eqn:Hcs; [done|].
    rewrite decide_True by done. cbn [collectionPath set_collectionPath].
    by rewrite (assignedPath_noMatch _ _ Hno).
  - by intros ->.
Qed.

End AfterPartition.

Lemma taxonomies_last_witness :
  let out := createPages sampleResolve sampleScroll newsTheme sampleTemplates
               sampleResult emptyWorld in
  errors sampleResult = None ∧
  out.1 = Ok tt ∧
  route_path <$> created out.2 =
    ["/blog//news/post-b"; "/blog//news/"; "/blog//post-a"; "/blog//post-c"; "/blog//";
     "/blog//news"].
Proof.
  intros out.
  assert (Herr : errors sampleResult = None) by reflexivity.
  split; [exact Herr|].
  destruct (taxonomies_last sampleResolve sampleScroll newsTheme sampleTemplates
              sampleResult emptyWorld Herr) as [Hok _].
  - intros node Hn.
    assert (Hf : filter (λ n, hasPosts n) (allGhostTag sampleResult) =
                 [sampleTag "news" (Some 2%Z)]) by (vm_compute; reflexivity).
    rewrite Hf in Hn. apply elem_of_cons in Hn as [->|Hn]; [|by apply elem_of_nil in Hn].
    exists ["b"]. split; [vm_compute; reflexivity|].
    repeat constructor.
  - intros node Hn.
    assert (Hf : filter (λ n, hasPosts n) (allGhostAuthor sampleResult) = [])
      by reflexivity.
    rewrite Hf in Hn. by apply elem_of_nil in Hn.
  - split; [exact Hok|]. vm_compute. reflexivity.
Defined.

Lemma lookups_after_partition_witness :
  let out := createPages sampleResolve sampleScroll overlapTheme sampleTemplates
               sampleResult emptyWorld in
  errors sampleResult = None ∧
  ∃ m, getCollectionPaths (Some ["b"; "a"]) (heap out.2) emptyWorld = (Ok m, emptyWorld) ∧
       m !! "b" = Some (Some "/news/").
Proof.
  intros out.
  assert (Herr : errors sampleResult = None) by reflexivity.
  split; [exact Herr|].
  destruct (lookups_after_partition sampleResolve sampleScroll overlapTheme
              sampleTemplates sampleResult emptyWorld ["b"; "a"] "b" postB emptyWorld)
    as (m & Hm & Hfirst & _).
  - exact Herr.
  - repeat constructor.
  - repeat constructor.
  - apply list_elem_of_here.
  - exists [postA], [postC]. split; [reflexivity|]. split; [reflexivity|].
    intros n' Hn'. apply elem_of_cons in Hn' as [->|Hn']; [discriminate|].
    by apply elem_of_nil in Hn'.
  - exists m. split; [exact Hm|].
    apply (Hfirst 0 (mkCollection "/news/" (Some (hasTag "news")))).
    split; [reflexivity|]. split; [vm_compute; reflexivity|]. intros j c' Hj. lia.
Defined.

Lemma getCollectionPaths_table_witness :
  ("__proto__" ∉ ["a"; "a"]) ∧
  (getCollectionPaths None [postA] emptyWorld).1 = Throw TypeError ∧
  (getCollectionPaths (Some []) [] emptyWorld).1 = Ok ∅ ∧
  ∃ m, (getCollectionPaths (Some ["a"; "a"]) [postA; postB] emptyWorld).1 = Ok m ∧
       (∀ i, is_Some (m !! i) ↔ i ∈ ["a"; "a"]).
Proof.
  assert (Hids : "__proto__" ∉ ["a"; "a"]).
  { intros Hin. repeat (apply elem_of_cons in Hin as [Hin|Hin]; [discriminate|]).
    by apply elem_of_nil in Hin. }
  destruct (getCollectionPaths_table None [postA] emptyWorld) as (_ & Hnone & _).
  { intros l Hl. discriminate. }
  destruct (getCollectionPaths_table (Some []) [] emptyWorld) as (_ & _ & Hnil & _).
  { intros l [= <-]. apply not_elem_of_nil. }
  destruct (getCollectionPaths_table (Some ["a"; "a"]) [postA; postB] emptyWorld)
    as (_ & _ & _ & Htable).
  { intros l [= <-]. exact Hids. }
  split; [exact Hids|].
  split; [by apply Hnone|]. split; [by apply Hnil|].
  destruct (getCollectionPaths (Some ["a"; "a"]) [postA; postB] emptyWorld).1
    as [m|e] eqn:E; [|vm_compute in E; discriminate].
  exists m. split; [done|].
  destruct (Htable m eq_refl) as (l & [= <-] & Hdom & _). exact Hdom.
Defined.

Lemma createPostPages_routes_witness :
  let twin := mkNode "a" "post-a-again" None [] None None (Some "/second/") in
  let first := mkNode "a" "post-a" None [] None None (Some "/first/") in
  ("__proto__" ∉ node_id <$> [first; twin]) ∧
  route_path <$> created (createPostPages sampleResolve sampleOptions [first; twin]
                            [] "post.js" "" emptyWorld).2 =
    ["//first/post-a"; "//first/post-a-again"] ∧
  ∃ (m : gmap string (option string)) rs,
    createPostPages sampleResolve sampleOptions [first; twin] [] "post.js" ""
      emptyWorld = (Ok tt, mkWorld [] [] rs) ∧
          length rs = 2 ∧ (∀ i, is_Some (m !! i) ↔ i ∈ ["a"; "a"]).
Proof.
  intros twin first.
  assert (Hids : "__proto__" ∉ node_id <$> [first; twin]).
  { intros Hin. repeat (apply elem_of_cons in Hin as [Hin|Hin]; [discriminate|]).
    by apply elem_of_nil in Hin. }
  split; [exact Hids|]. split; [vm_compute; reflexivity|].
  destruct (createPostPages_routes sampleResolve sampleOptions [first; twin] []
              "post.js" "" emptyWorld Hids) as (m & rs & Hrun & Hlen & Hdom & _).
  exists m, rs. split; [exact Hrun|]. split; [exact Hlen|exact Hdom].
Defined.

(** ** The configuration node *)

(** X12: [sourceNodes] fails with a [TypeError], before any call, when the
    [routes] option is [null]; otherwise it registers its schema and, for a
    base path that is a string or not given, creates one configuration node
    with that base path resolved on its own ([/] when it is not given) and
    with the content and digest of the same configuration; a base path that
    is [null] is handed to [resolveUrl] as it is.  The base path it resolves
    is the one [createPages] plans with exactly when [routes] is not [null]
    and its base path is neither [null] nor the empty string: [createPages]
    replaces all of these by [/], [sourceNodes] only a base path that is
    not given. *)
Theorem sourceNodes_basePath resolveUrl resolveUrlNull digest stringify ropt v s :
  let t := mkThemeOptions (pagesRoutes ropt) v s in
  let out := sourceNodes resolveUrl resolveUrlNull digest stringify ropt in
  (ropt = JsNull → out = (Throw TypeError, mkSourceLog [] [])) ∧
  (ropt ≠ JsNull → typesCreated out.2 = [ghostConfigTypes]) ∧
  (∀ b, sourceBasePath ropt = Ok (BaseStr b) →
     ∃ node, out = (Ok tt, mkSourceLog [ghostConfigTypes] [node]) ∧
       gc_basePath (cn_config node) = resolveUrl b None None None ∧
       in_content (cn_internal node) = stringify (cn_config node) ∧
       in_contentDigest (cn_internal node) = digest (cn_config node)) ∧
  (∀ r, ropt = JsVal r → ro_basePath r = JsNull →
     out = match resolveUrlNull with
           | Ok u => (Ok tt, mkSourceLog [ghostConfigTypes]
                               [configNode digest stringify u])
           | Throw e => (Throw e, mkSourceLog [ghostConfigTypes] [])
           end) ∧
  (sourceBasePath ropt = Ok (BaseStr (basePathOf t)) ↔
     ropt ≠ JsNull ∧
     ∀ r, ropt = JsVal r → ro_basePath r ≠ JsNull ∧ ro_basePath r ≠ JsVal "") ∧
  ((ropt = JsNull ∨
    ∃ r, ropt = JsVal r ∧ (ro_basePath r = JsNull ∨ ro_basePath r = JsVal "")) →
   basePathOf t = "/").
Proof.
  intros t out. subst t out. unfold sourceNodes, basePathOf, pagesRoutes.
  cbn [routes]. split_and!.
  - by intros ->.
  - intros Hne. destruct ropt as [| |r]; [done|done|]. cbn [sourceBasePath].
    destruct (ro_basePath r); cbn [resolveBase]; [done| |done].
    by destruct resolveUrlNull.
  - intros b Hb. rewrite Hb. cbn [resolveBase]. by eexists.
  - intros r -> Hr. cbn [sourceBasePath]. rewrite Hr. cbn [resolveBase].
    by destruct resolveUrlNull.
  - destruct ropt as [| |r]; cbn [sourceBasePath truthyOpt fmap option_fmap option_map].
    + split; [|done]. intros _. split; [done|]. intros r Hr. discriminate.
    + split; [done|]. by intros [? _].
    + cbn [r_basePath]. destruct (ro_basePath r) as [| |b] eqn:Hb; cbn [truthyOpt].
      * split; [|done]. intros _. split; [done|]. intros r' [= <-].
        rewrite Hb. by split.
      * split; [done|]. intros [_ Hno]. by destruct (Hno r eq_refl) as [? _].
      * destruct (decide (b = "")) as [->|Hne].
        -- split; [done|]. intros [_ Hno]. by destruct (Hno r eq_refl) as [_ ?].
        -- split; [|done]. intros _. split; [done|]. intros r' [= <-].
           rewrite Hb. split; [done|]. intros [= ->]. done.
  - intros [->|(r & -> & [Hr|Hr])]; cbn [truthyOpt fmap option_fmap option_map r_basePath];
      [done| |]; rewrite Hr; done.
Qed.

Lemma sourceNodes_basePath_witness :
  let digest := λ c, gc_basePath c in
  (sourceNodes sampleResolve (Throw TypeError) digest digest JsNull).1 = Throw TypeError ∧
  sourceBasePath blogBaseRoutes =
    Ok (BaseStr (basePathOf (mkThemeOptions (pagesRoutes blogBaseRoutes) false false))) ∧
  sourceBasePath emptyBaseRoutes = Ok (BaseStr "") ∧
  basePathOf (mkThemeOptions (pagesRoutes emptyBaseRoutes) false false) = "/" ∧
  sourceBasePath nullBaseRoutes = Ok BaseNull ∧
  basePathOf (mkThemeOptions (pagesRoutes nullBaseRoutes) false false) = "/".
Proof.
  intros digest.
  destruct (sourceNodes_basePath sampleResolve (Throw TypeError) digest digest
              JsNull false false) as (Hnull & _).
  destruct (sourceNodes_basePath sampleResolve (Throw TypeError) digest digest
              blogBaseRoutes false false) as (_ & _ & _ & _ & Hsame & _).
  destruct (sourceNodes_basePath sampleResolve (Throw TypeError) digest digest
              emptyBaseRoutes false false) as (_ & _ & _ & _ & _ & Hempty).
  destruct (sourceNodes_basePath sampleResolve (Throw TypeError) digest digest
              nullBaseRoutes false false) as (_ & _ & _ & _ & _ & Hnb).
  split; [by rewrite Hnull|]. split.
  { apply Hsame. split; [discriminate|]. intros r [= <-]. split; discriminate. }
  split; [reflexivity|]. split.
  { apply Hempty. right. eexists. split; [reflexivity|]. by right. }
  split; [reflexivity|].
  apply Hnb. right. eexists. split; [reflexivity|]. by left.
Defined.

(** ** Every post gets its route *)

Lemma append_empty_r (s : string) : s +:+ "" = s.
Proof.
  induction s as [|a s IH]; [done|].
  change (String a (s +:+ "") = String a s). by rewrite IH.
Qed.

Lemma elem_of_concat {A} (x : A) (ls : list (list A)) :
  x ∈ concat ls ↔ ∃ l, x ∈ l ∧ l ∈ ls.
Proof.
  induction ls as [|l0 ls IH]; simpl.
  - split; [by intros ?%elem_of_nil|]. by intros (l & _ & ?%elem_of_nil).
  - rewrite elem_of_app, IH. split.
    + intros [Hx|(l & Hx & Hl)].
      * exists l0. split; [done|apply list_elem_of_here].
      * exists l. split; [done|by apply list_elem_of_further].
    + intros (l & Hx & [->|Hl]%elem_of_cons); [by left|]. right. by exists l.
Qed.

Section PostRoutes.
Variable resolveUrl : string → option string → option string → option string → string.
Variable infiniteScroll : bool → list Node → IScroll.

(** In a collection whose posts all carry the path [p], every post has a
    route in what [createCollection] creates, resolved under [p]. *)
Lemma createCollection_post_route o posts tpl tags cp p node :
  Forall (λ n, collectionPath n = Some p) posts →
  node ∈ posts →
  ∃ r c, r ∈ routesOf (createCollection resolveUrl infiniteScroll o posts tpl tags cp) ∧
    component r = t_post tpl ∧
    route_path r = resolveUrl (basePath o) (Some p) (Some (slug node)) (url node) ∧
    route_context r = PostCtx c ∧ pc_slug c = slug node ∧
    collectionPaths c !! node_id node = Some (Some p).
Proof.
  intros Hall Hin.
  destruct (createPostPages_table resolveUrl o posts tags (t_post tpl) "")
    as (m & Hlook & Hposts).
  pose proof (createIndexPage_emits resolveUrl o posts
                (indexIds (infiniteScroll (iScrollEnabled o) posts))
                (t_index tpl) cp) as Hindex.
  pose proof (emits_bind _ (λ _, createIndexPage resolveUrl o posts
                (indexIds (infiniteScroll (iScrollEnabled o) posts))
                (t_index tpl) cp) tt tt _ _ Hposts Hindex) as Hboth.
  unfold createCollection. rewrite (emits_routesOf _ _ _ Hboth).
  apply list_elem_of_lookup_1 in Hin as (j & Hj).
  assert (Hm : m !! node_id node = Some (Some p)).
  { rewrite Hlook, decide_True by (apply list_elem_of_fmap_2; by eapply list_elem_of_lookup_2).
    destruct (findById_own posts node) as [n0 Hn0]; [by eapply list_elem_of_lookup_2|].
    rewrite Hn0. cbn [fmap option_fmap option_map]. f_equal.
    apply findById_first in Hn0 as (l1 & l2 & -> & _ & _).
    apply (proj1 (Forall_forall _ _) Hall). set_solver. }
  eexists _, _. split.
  - apply elem_of_app. left. eapply list_elem_of_lookup_2.
    rewrite list_lookup_imap, Hj. reflexivity.
  - cbn [postRoute component route_path route_context pc_slug collectionPaths].
    rewrite Hm. cbn [mjoin option_join]. by rewrite append_empty_r.
Qed.

(** X13: every post gets a post route under the path of its collection: the
    path of the first configured collection whose selector accepts it, and
    [/] when collections are configured and none accepts it (selectors not
    reading [collectionPath]). *)
Theorem post_routed_under_collection t tpl res w l n :
  errors res = None →
  Forall (λ c, stable (selectorOf c)) (collectionsOf t) →
  allGhostPost res !! l = Some n →
  let cs := collectionsOf t in
  let out := createPages resolveUrl infiniteScroll t tpl res w in
  ∀ p, ((∃ k c, firstMatch cs n k c ∧ p = path c) ∨
        (noMatch cs n ∧ cs ≠ [] ∧ p = "/")) →
    ∃ r c, r ∈ created out.2 ∧
      component r = t_post tpl ∧
      route_path r = resolveUrl (basePathOf t) (Some p) (Some (slug n)) (url n) ∧
      route_context r = PostCtx c ∧ pc_slug c = slug n ∧
      collectionPaths c !! node_id n = Some (Some p).
Proof.
  intros Herr Hst Hn cs out p Hp.
  destruct (createPages_plan resolveUrl infiniteScroll t tpl res w Herr Hst)
    as (h' & r0 & taxR & Hheap & _ & Hrun).
  subst out. rewrite Hrun. cbn [snd created]. fold cs in Hheap |- *.
  set (h := allGhostPost res) in *. set (ls := seq 0 (length h)) in *.
  set (o := createOptionsOf t res).
  assert (Hls : l ∈ ls) by by eapply seq_lookup_node.
  destruct Hp as [(k & c & Hfm & ->)|(Hno & Hne & ->)].
  - assert (Hk : k < length (carve cs h ls).1).
    { rewrite carve_length. destruct Hfm as [Hk _]. by eapply lookup_lt_Some. }
    destruct (lookup_lt_is_Some_2 _ _ Hk) as [g Hg].
    assert (Hc : cs !! k = Some c) by by destruct Hfm.
    assert (Hlg : l ∈ g).
    { apply (carve_group_elem cs h ls k g l Hg). split; [done|]. by exists n, c. }
    destruct (createCollection_post_route o (deref h' g) tpl (allGhostTag res)
                (Some (path c)) (path c) (set_collectionPath (Some (path c)) n))
      as (r & c' & Hr & Hfacts).
    + apply Forall_forall. intros n' (l' & Hl' & Hn')%list_elem_of_omap.
      destruct (stamped_group _ _ _ _ _ _ _ _ Hheap Hc Hg Hl') as (n'' & _ & _ & Heq).
      rewrite Heq in Hn'. by injection Hn' as <-.
    + apply list_elem_of_omap. exists l. split; [done|].
      destruct (stamped_group _ _ _ _ _ _ _ _ Hheap Hc Hg Hlg) as (n'' & Hn'' & _ & Heq).
      rewrite Heq. pose proof (eq_trans (eq_sym Hn'') Hn) as E. by injection E as ->.
    + exists r, c'. split; [|exact Hfacts].
      rewrite !elem_of_app. right. right. left.
      apply elem_of_concat. eexists. split; [exact Hr|].
      eapply list_elem_of_lookup_2. rewrite lookup_zip_with, Hc, Hg. reflexivity.
  - assert (Hlr : l ∈ (carve cs h ls).2).
    { apply carve_residual_elem. split; [done|]. right. by exists n. }
    destruct (createCollection_post_route o (deref h' (carve cs h ls).2) tpl
                (allGhostTag res) None "/" (set_collectionPath (Some "/") n))
      as (r & c' & Hr & Hfacts).
    + apply Forall_forall. intros n' (l' & Hl' & Hn')%list_elem_of_omap.
      destruct (stamped_residual _ _ _ _ _ Hheap Hne Hl') as (n'' & _ & _ & Heq).
      rewrite Heq in Hn'. by injection Hn' as <-.
    + apply list_elem_of_omap. exists l. split; [done|].
      destruct (stamped_residual _ _ _ _ _ Hheap Hne Hlr) as (n'' & Hn'' & _ & Heq).
      rewrite Heq. pose proof (eq_trans (eq_sym Hn'') Hn) as E. by injection E as ->.
    + exists r, c'. split; [|exact Hfacts].
      rewrite !elem_of_app. do 3 right. by left.
Qed.

End PostRoutes.

Lemma post_routed_under_collection_witness :
  let out := createPages sampleResolve sampleScroll overlapTheme sampleTemplates
               sampleResult emptyWorld in
  errors sampleResult = None ∧
  allGhostPost sampleResult !! 1 = Some postB ∧
  ∃ r, r ∈ created out.2 ∧ route_path r = "/blog//news/post-b".
Proof.
  intros out.
  assert (Herr : errors sampleResult = None) by reflexivity.
  assert (Hn : allGhostPost sampleResult !! 1 = Some postB) by reflexivity.
  split; [exact Herr|]. split; [exact Hn|].
  destruct (post_routed_under_collection sampleResolve sampleScroll overlapTheme
              sampleTemplates sampleResult emptyWorld 1 postB Herr
              ltac:(repeat constructor) Hn "/news/")
    as (r & c & Hr & _ & Hpath & _).
  - left. exists 0, (mkCollection "/news/" (Some (hasTag "news"))).
    split; [|reflexivity].
    split; [reflexivity|]. split; [vm_compute; reflexivity|]. intros j c' Hj. lia.
  - exists r. split; [exact Hr|]. rewrite Hpath. vm_compute. reflexivity.
Defined.

(** ** No configured collection *)

Section NoCollections.
Variable resolveUrl : string → option string → option string → option string → string.
Variable infiniteScroll : bool → list Node → IScroll.

Lemma createCollection_post_route_first o posts tpl tags cp node :
  node ∈ posts →
  ∃ r c n0, r ∈ routesOf (createCollection resolveUrl infiniteScroll o posts tpl tags cp) ∧
    firstWithId (node_id node) posts n0 ∧
    component r = t_post tpl ∧
    route_path r =
      resolveUrl (basePath o) (collectionPath n0) (Some (slug node)) (url node) ∧
    route_context r = PostCtx c ∧ pc_slug c = slug node ∧
    collectionPaths c !! node_id node = Some (collectionPath n0).
Proof.
  intros Hin.
  destruct (createPostPages_table resolveUrl o posts tags (t_post tpl) "")
    as (m & Hlook & Hposts).
  pose proof (createIndexPage_emits resolveUrl o posts
                (indexIds (infiniteScroll (iScrollEnabled o) posts))
                (t_index tpl) cp) as Hindex.
  pose proof (emits_bind _ (λ _, createIndexPage resolveUrl o posts
                (indexIds (infiniteScroll (iScrollEnabled o) posts))
                (t_index tpl) cp) tt tt _ _ Hposts Hindex) as Hboth.
  unfold createCollection. rewrite (emits_routesOf _ _ _ Hboth).
  destruct (findById_own posts node Hin) as [n0 Hn0].
  assert (Hm : m !! node_id node = Some (collectionPath n0)).
  { rewrite Hlook, decide_True by by apply list_elem_of_fmap_2. by rewrite Hn0. }
  apply list_elem_of_lookup_1 in Hin as (j & Hj).
  eexists _, _, n0. split.
  - apply elem_of_app. left. eapply list_elem_of_lookup_2.
    rewrite list_lookup_imap, Hj. reflexivity.
  - split; [by apply findById_first|].
    cbn [postRoute component route_path route_context pc_slug collectionPaths].
    rewrite Hm. cbn [mjoin option_join]. by rewrite append_empty_r.
Qed.

(** X14: with no configured collection nothing is assigned, and every post still
    gets a post route: it is resolved with the [collectionPath] the first
    post with its id was fetched with, so with an undefined collection path
    when the query delivers none. *)
Theorem post_routed_without_collections t tpl res w l n :
  errors res = None →
  collectionsOf t = [] →
  allGhostPost res !! l = Some n →
  let out := createPages resolveUrl infiniteScroll t tpl res w in
  heap out.2 = allGhostPost res ∧
  writes out.2 = writes w ∧
  ∃ r c n0, r ∈ created out.2 ∧
    firstWithId (node_id n) (allGhostPost res) n0 ∧
    component r = t_post tpl ∧
    route_path r =
      resolveUrl (basePathOf t) (collectionPath n0) (Some (slug n)) (url n) ∧
    route_context r = PostCtx c ∧ pc_slug c = slug n ∧
    collectionPaths c !! node_id n = Some (collectionPath n0).
Proof.
  intros Herr Hnil Hn out.
  assert (Hst : Forall (λ c, stable (selectorOf c)) (collectionsOf t))
    by (rewrite Hnil; constructor).
  destruct (createPages_plan resolveUrl infiniteScroll t tpl res w Herr Hst)
    as (h' & r0 & taxR & Hheap & _ & Hrun).
  subst out. rewrite Hrun. cbn [snd heap writes created].
  rewrite Hnil in *. cbn [carve fst snd writeLog zip_with concat] in *.
  assert (Hh : h' = allGhostPost res).
  { apply list_eq. intros k. rewrite Hheap. by destruct (allGhostPost res !! k). }
  subst h'. rewrite deref_all.
  split; [done|]. split; [by rewrite app_nil_r|].
  destruct (createCollection_post_route_first (createOptionsOf t res)
              (allGhostPost res) tpl (allGhostTag res) None n)
    as (r & c & n0 & Hr & Hfacts); [by eapply list_elem_of_lookup_2|].
  exists r, c, n0. split; [|exact Hfacts].
  rewrite !elem_of_app. do 3 right. by left.
Qed.

End NoCollections.

Lemma post_routed_without_collections_witness :
  let out := createPages sampleResolve sampleScroll plainTheme sampleTemplates
               sampleResult emptyWorld in
  errors sampleResult = None ∧ collectionsOf plainTheme = [] ∧
  allGhostPost sampleResult !! 0 = Some postA ∧
  ∃ r c, r ∈ created out.2 ∧ route_context r = PostCtx c ∧
         collectionPaths c !! "a" = Some None.
Proof.
  intros out.
  assert (Herr : errors sampleResult = None) by reflexivity.
  assert (Hnil : collectionsOf plainTheme = []) by reflexivity.
  assert (Hn : allGhostPost sampleResult !! 0 = Some postA) by reflexivity.
  split; [exact Herr|]. split; [exact Hnil|]. split; [exact Hn|].
  destruct (post_routed_without_collections sampleResolve sampleScroll plainTheme
              sampleTemplates sampleResult emptyWorld 0 postA Herr Hnil Hn)
    as (_ & _ & r & c & n0 & Hr & Hfirst & _ & _ & Hc & _ & Htable).
  exists r, c. split; [exact Hr|]. split; [exact Hc|].
  assert (n0 = postA) as ->.
  { destruct Hfirst as (l1 & l2 & Hl & Hid & Hl1).
    destruct l1 as [|x l1]; [by injection Hl as <-|].
    injection Hl as <- _. exfalso. apply (Hl1 postA); [apply list_elem_of_here|done]. }
  exact Htable.
Defined.

(** * Precedence among collections *)

Lemma elem_of_deref (h : list Node) (g : list nat) node :
  node ∈ deref h g ↔ ∃ l, l ∈ g ∧ h !! l = Some node.
Proof. unfold deref. apply list_elem_of_omap. Qed.

Section Precedence.
Variable resolveUrl : string → option string → option string → option string → string.
Variable infiniteScroll : bool → list Node → IScroll.

(** What [createCollection] creates: the post routes, one per post, then
    the pages of the index. *)
Lemma createCollection_routes o posts tpl tags cp :
  ∃ m,
    routesOf (createCollection resolveUrl infiniteScroll o posts tpl tags cp) =
      imap (λ i node,
         postRoute resolveUrl o tags (t_post tpl) "" m
           (match i with 0 => sentinelNode | S j => default sentinelNode (posts !! j) end)
           (default sentinelNode (posts !! S i)) node) posts ++
      (pageRoute (Z.of_nat (length posts)) (postsPerPage o) (t_index tpl)
         (λ n, if decide (n = 0)
               then resolveUrl (basePath o) (Some (default "/" cp)) None None
               else resolveUrl (basePath o) (Some (default "/" cp)) None None +:+ "page")
         (IndexContext (default "/" cp) (iScrollEnabled o)
            (indexIds (infiniteScroll (iScrollEnabled o) posts)) 0)
       <$> seq 0 (numberOfPages (Z.of_nat (length posts)) (postsPerPage o))).
Proof.
  destruct (createPostPages_table resolveUrl o posts tags (t_post tpl) "")
    as (m & _ & Hposts).
  pose proof (createIndexPage_emits resolveUrl o posts
                (indexIds (infiniteScroll (iScrollEnabled o) posts))
                (t_index tpl) cp) as Hindex.
  pose proof (emits_bind _ (λ _, createIndexPage resolveUrl o posts
                (indexIds (infiniteScroll (iScrollEnabled o) posts))
                (t_index tpl) cp) tt tt _ _ Hposts Hindex) as Hboth.
  exists m. unfold createCollection. by rewrite (emits_routesOf _ _ _ Hboth).
Qed.

(** A post route of a collection is the route of one of its posts. *)
Lemma createCollection_post_routes_from o posts tpl tags cp rt pc :
  rt ∈ routesOf (createCollection resolveUrl infiniteScroll o posts tpl tags cp) →
  route_context rt = PostCtx pc →
  ∃ node, node ∈ posts ∧ pc_slug pc = slug node.
Proof.
  destruct (createCollection_routes o posts tpl tags cp) as (m & ->).
  intros [Hin|Hin]%elem_of_app Hctx.
  - apply list_elem_of_lookup_1 in Hin as (i & Hi).
    rewrite list_lookup_imap in Hi.
    destruct (posts !! i) as [node|] eqn:Hnode; [|done].
    injection Hi as <-. cbn [postRoute route_context] in Hctx. injection Hctx as <-.
    exists node. split; [by eapply list_elem_of_lookup_2|done].
  - apply list_elem_of_fmap in Hin as (n & -> & _). discriminate.
Qed.


(** C2 (as the code has it): with selectors that do not read
    [collectionPath], a post that some configured selector accepts is in
    the group of the first collection accepting it and in no other group
    nor in the rest; it carries the path of that collection and has its
    post route among the routes of that collection, resolved under that
    path.  A post no selector accepts is in the rest and in no group, and has
    its post route among the routes of the rest, which are those of the
    default collection with its index at [/].  Every post route of a
    collection is the route of a post of its group. *)
Theorem first_match_wins t tpl res w l n :
  errors res = None →
  Forall (λ c, stable (selectorOf c)) (collectionsOf t) →
  allGhostPost res !! l = Some n →
  let cs := collectionsOf t in
  let o := createOptionsOf t res in
  let out := createPages resolveUrl infiniteScroll t tpl res w in
  let routesFor := λ g cp,
    routesOf (createCollection resolveUrl infiniteScroll o (deref (heap out.2) g)
                tpl (allGhostTag res) cp) in
  ∃ gs r taxR,
    length gs = length cs ∧
    created out.2 =
      created w ++
      routesOf (createOrdinaryPages resolveUrl o (allGhostPage res) (t_page tpl)) ++
      concat (zip_with (λ c g, routesFor g (Some (path c))) cs gs) ++
      routesFor r None ++
      taxR ∧
    (∀ k c, firstMatch cs n k c →
       (∃ g rt pc, gs !! k = Some g ∧ l ∈ g ∧
          rt ∈ routesFor g (Some (path c)) ∧
          component rt = t_post tpl ∧
          route_path rt =
            resolveUrl (basePathOf t) (Some (path c)) (Some (slug n)) (url n) ∧
          route_context rt = PostCtx pc ∧ pc_slug pc = slug n) ∧
       (∀ k' g', gs !! k' = Some g' → l ∈ g' → k' = k) ∧
       (l ∉ r) ∧
       collectionPath <$> heap out.2 !! l = Some (Some (path c))) ∧
    (noMatch cs n →
       l ∈ r ∧
       (∃ rt pc, rt ∈ routesFor r None ∧
          component rt = t_post tpl ∧
          route_context rt = PostCtx pc ∧ pc_slug pc = slug n ∧
          (cs ≠ [] →
           route_path rt =
             resolveUrl (basePathOf t) (Some "/") (Some (slug n)) (url n))) ∧
       (∀ k g, gs !! k = Some g → l ∉ g) ∧
       (cs ≠ [] → collectionPath <$> heap out.2 !! l = Some (Some "/"))) ∧
    ((∃ k c, firstMatch cs n k c) ∨ noMatch cs n) ∧
    (∀ g cp rt pc, rt ∈ routesFor g cp → route_context rt = PostCtx pc →
       ∃ l' n', l' ∈ g ∧ heap out.2 !! l' = Some n' ∧ pc_slug pc = slug n') ∧
    (∀ posts tags,
       createCollection resolveUrl infiniteScroll o posts tpl tags None =
       createCollection resolveUrl infiniteScroll o posts tpl tags (Some "/")).
Proof.
  intros Herr Hst Hn cs o out routesFor.
  destruct (createPages_plan resolveUrl infiniteScroll t tpl res w Herr Hst)
    as (h' & r & taxR & Hheap & Hr & Hrun).
  fold cs o in Hheap, Hrun. subst routesFor out. rewrite Hrun. cbn [snd heap created].
  set (h := allGhostPost res) in *. set (ls := seq 0 (length h)) in *.
  assert (Hls : l ∈ ls) by by eapply seq_lookup_node.
  exists (carve cs h ls).1, (carve cs h ls).2, taxR.
  split; [apply carve_length|]. split; [done|]. split_and!.
  - intros k c Hfm.
    assert (Hk : k < length (carve cs h ls).1).
    { rewrite carve_length. destruct Hfm as [Hk _]. by eapply lookup_lt_Some. }
    destruct (lookup_lt_is_Some_2 _ _ Hk) as [g Hg].
    assert (Hc : cs !! k = Some c) by by destruct Hfm.
    assert (Hlg : l ∈ g).
    { apply (carve_group_elem cs h ls k g l Hg). split; [done|]. by exists n, c. }
    split_and!.
    + destruct (createCollection_post_route resolveUrl infiniteScroll o (deref h' g)
                  tpl (allGhostTag res) (Some (path c)) (path c)
                  (set_collectionPath (Some (path c)) n))
        as (rt & pc & Hrt & Hcomp & Hpath & Hctx & Hslug & _).
      * apply Forall_forall. intros n' (l' & Hl' & Hn')%elem_of_deref.
        destruct (stamped_group _ _ _ _ _ _ _ _ Hheap Hc Hg Hl') as (n'' & _ & _ & Heq).
        rewrite Heq in Hn'. by injection Hn' as <-.
      * apply elem_of_deref. exists l. split; [done|].
        destruct (stamped_group _ _ _ _ _ _ _ _ Hheap Hc Hg Hlg)
          as (n'' & Hn'' & _ & Heq).
        rewrite Heq. pose proof (eq_trans (eq_sym Hn'') Hn) as E. by injection E as ->.
      * by exists g, rt, pc.
    + intros k' g' Hg' Hl'.
      apply (carve_group_elem cs h ls k' g' l Hg') in Hl' as (_ & n' & c' & Hn' & Hfm').
      rewrite Hn in Hn'. injection Hn' as <-.
      by destruct (firstMatch_unique _ _ _ _ _ _ Hfm Hfm').
    + intros [_ [Hnil|(n' & Hn' & Hno)]]%carve_residual_elem.
      * by rewrite Hnil in Hc.
      * rewrite Hn in Hn'. injection Hn' as <-.
        by eapply firstMatch_not_noMatch.
    + destruct (stamped_group _ _ _ _ _ _ _ _ Hheap Hc Hg Hlg) as (n' & _ & _ & ->). done.
  - intros Hno.
    assert (Hlr : l ∈ (carve cs h ls).2).
    { apply carve_residual_elem. split; [done|]. right. by exists n. }
    split_and!.
    + done.
    + destruct (decide (cs = [])) as [Hnil|Hne].
      * assert (Hin : n ∈ deref h' (carve cs h ls).2).
        { apply elem_of_deref. exists l. split; [done|].
          rewrite Hheap, Hn, Hnil. done. }
        destruct (createCollection_post_route_first resolveUrl infiniteScroll o
                    (deref h' (carve cs h ls).2) tpl (allGhostTag res) None n Hin)
          as (rt & pc & n0 & Hrt & _ & Hcomp & _ & Hctx & Hslug & _).
        exists rt, pc. by split_and!.
      * destruct (createCollection_post_route resolveUrl infiniteScroll o
                    (deref h' (carve cs h ls).2) tpl (allGhostTag res) None "/"
                    (set_collectionPath (Some "/") n))
          as (rt & pc & Hrt & Hcomp & Hpath & Hctx & Hslug & _).
        -- apply Forall_forall. intros n' (l' & Hl' & Hn')%elem_of_deref.
           destruct (stamped_residual _ _ _ _ _ Hheap Hne Hl') as (n'' & _ & _ & Heq).
           rewrite Heq in Hn'. by injection Hn' as <-.
        -- apply elem_of_deref. exists l. split; [done|].
           destruct (stamped_residual _ _ _ _ _ Hheap Hne Hlr) as (n'' & Hn'' & _ & Heq).
           rewrite Heq. pose proof (eq_trans (eq_sym Hn'') Hn) as E. by injection E as ->.
        -- exists rt, pc. by split_and!.
    + intros k g Hg Hl'.
      apply (carve_group_elem cs h ls k g l Hg) in Hl' as (_ & n' & c' & Hn' & Hfm').
      rewrite Hn in Hn'. injection Hn' as <-.
      by eapply firstMatch_not_noMatch.
    + intros Hne.
      destruct (stamped_residual _ _ _ _ _ Hheap Hne Hlr) as (n' & _ & _ & ->). done.
  - apply firstMatch_or_noMatch.
  - intros g cp rt pc Hrt Hctx.
    destruct (createCollection_post_routes_from _ _ _ _ _ _ _ Hrt Hctx)
      as (node & (l' & Hl' & Hnode)%elem_of_deref & Hslug).
    by exists l', node.
  - done.
Qed.

End Precedence.

Lemma first_match_wins_witness :
  let out := createPages sampleResolve sampleScroll overlapTheme sampleTemplates
               sampleResult emptyWorld in
  errors sampleResult = None ∧
  Forall (λ c, stable (selectorOf c)) (collectionsOf overlapTheme) ∧
  allGhostPost sampleResult !! 1 = Some postB ∧
  (λ c, selectorOf c postB) <$> collectionsOf overlapTheme = [true; true] ∧
  collectionPath <$> heap out.2 = [Some "/all/"; Some "/news/"; Some "/all/"] ∧
  collectionPath <$> heap out.2 !! 1 = Some (Some "/news/") ∧
  ∃ g rt, 1 ∈ g ∧
    rt ∈ routesOf (createCollection sampleResolve sampleScroll
                     (createOptionsOf overlapTheme sampleResult)
                     (deref (heap out.2) g) sampleTemplates
                     (allGhostTag sampleResult) (Some "/news/")) ∧
    route_path rt = "/blog//news/post-b".
Proof.
  intros out.
  assert (Herr : errors sampleResult = None) by reflexivity.
  assert (Hn : allGhostPost sampleResult !! 1 = Some postB) by reflexivity.
  assert (Hst : Forall (λ c, stable (selectorOf c)) (collectionsOf overlapTheme)).
  { repeat constructor. }
  split; [exact Herr|]. split; [exact Hst|]. split; [exact Hn|].
  split; [vm_compute; reflexivity|]. split; [vm_compute; reflexivity|].
  destruct (first_match_wins sampleResolve sampleScroll overlapTheme sampleTemplates
              sampleResult emptyWorld 1 postB Herr Hst Hn)
    as (gs & r & taxR & _ & _ & Hfirst & _).
  destruct (Hfirst 0 (mkCollection "/news/" (Some (hasTag "news"))))
    as ((g & rt & pc & _ & Hin & Hrt & _ & Hpath & _) & _ & _ & Hp).
  - split; [reflexivity|]. split; [vm_compute; reflexivity|]. intros j c' Hj. lia.
  - split; [exact Hp|]. exists g, rt. split; [exact Hin|]. split; [exact Hrt|].
    rewrite Hpath. vm_compute. reflexivity.
Defined.

(** A selector that reads [collectionPath] breaks the precedence: every
    post, as it is fetched, is accepted by both selectors; the first
    collection takes them all and, asked again once they are stamped, leaves
    them all to the second, so every post has a post route in both
    collections and ends with the path of the later one. *)
Lemma later_collection_wins_with_stamp_reading_selector :
  let out := createPages sampleResolve sampleScroll freshThenAllTheme sampleTemplates
               sampleResult emptyWorld in
  path <$> collectionsOf freshThenAllTheme = ["/fresh/"; "/all/"] ∧
  (λ c, selectorOf c postA) <$> collectionsOf freshThenAllTheme = [true; true] ∧
  out.1 = Ok tt ∧
  collectionPath <$> heap out.2 = [Some "/all/"; Some "/all/"; Some "/all/"] ∧
  route_path <$> created out.2 =
    ["/blog//post-a"; "/blog//post-b"; "/blog//post-c"; "/blog//fresh/";
     "/blog//all/post-a"; "/blog//all/post-b"; "/blog//all/post-c"; "/blog//all/";
     "/blog//"; "/blog//news"].
Proof.
  intros out. split_and!; vm_compute; reflexivity.
Qed.

(** * Taxonomy pages of a run *)



Section TaxonomyClaims.
Variable resolveUrl : string → option string → option string → option string → string.
Variable infiniteScroll : bool → list Node → IScroll.





End TaxonomyClaims.


